(** * ctree: the tree algorithms of [ctree/analysis_tree_helpers.py]

    A shallow embedding of the [HTree] class and of the module-level
    helpers ([do_merges], [simplify_tree],
    [calculate_cophenetic_distance]), with the properties that the
    design notes of the package state about them.

    Conventions of the embedding.
    - An [HTree] stores one numpy array per dataframe column, all of the
      same length; it is modelled as the list of its rows.
    - Heights and positions are Python floats; they are modelled as
      rationals, so rounding is not part of the model.
    - Labels live in object arrays, so they are Python strings of any
      length.
    - A Python [while] loop is a fixpoint on a fuel argument; running out
      of fuel is the distinguished outcome [OutOfFuel], which is not a
      value the Python code can return.
    - An uncaught Python exception is the outcome [Raise]. *)

From Stdlib Require Import QArith Qminmax.
From stdpp Require Import gmap strings list sorting.

Local Open Scope string_scope.
Local Open Scope list_scope.
Local Open Scope nat_scope.

(** ** Outcomes of a call *)

Inductive exn : Set :=
  | AssertionError
  | AttributeError
  | ValueError
  | IndexError.

Inductive result (A : Type) : Type :=
  | Ok (a : A)
  | Raise (e : exn)
  | OutOfFuel.

Arguments Ok {A} a.
Arguments Raise {A} e.
Arguments OutOfFuel {A}.

#[global] Instance result_ret : MRet result := λ A a, Ok a.
#[global] Instance result_bind : MBind result := λ A B k m,
  match m with
  | Ok a => k a
  | Raise e => Raise e
  | OutOfFuel => OutOfFuel
  end.

(** ** The tree: one row per node *)

Record row : Type := Row {
  x : Q;
  y : Q;
  isleaf : bool;
  child : string;
  parent : string;
  col : string
}.

Abbreviation HTree := (list row).

(** [self.parent[self.child == c]] *)
Definition parent_where_child (T : HTree) (c : string) : list string :=
  parent <$> filter (λ r, child r = c) T.

(** [self.child[self.parent == p]] *)
Definition child_where_parent (T : HTree) (p : string) : list string :=
  child <$> filter (λ r, parent r = p) T.

(** [self.child[self.isleaf]] *)
Definition leaf_names (T : HTree) : list string :=
  child <$> filter (λ r, isleaf r = true) T.

(** Truth value of a Python string, also the truth value of a one-element
    object array holding it. *)
Definition str_truth (s : string) : bool :=
  if decide (s = "") then false else true.

(** ** [HTree.get_ancestors]

    [current_node] is the string [node] on entry and a numpy array
    afterwards.  In one round the array [self.parent[self.child ==
    current_node]] is appended to [ancestors]; then
    - an empty array becomes [None] (and [[]] when [rootnode] is [None]):
      the loop ends;
    - a one-element array is compared with [rootnode]: when equal the
      loop ends, otherwise the loop goes on with that element;
    - the truth value of an array of two or more elements is ambiguous:
      [if current_node == rootnode] raises [ValueError]. *)
Fixpoint get_ancestors_loop (fuel : nat) (T : HTree) (rootnode : option string)
    (current_node : string) (ancestors : list string) : result (list string) :=
  match fuel with
  | O => OutOfFuel
  | S fuel' =>
    if str_truth current_node then
      let current := parent_where_child T current_node in
      let ancestors := ancestors ++ current in
      match current with
      | [] => Ok ancestors
      | [p] =>
        if decide (rootnode = Some p) then Ok ancestors
        else get_ancestors_loop fuel' T rootnode p ancestors
      | _ :: _ :: _ => Raise ValueError
      end
    else Ok ancestors
  end.

Definition get_ancestors (fuel : nat) (T : HTree) (node : string)
    (rootnode : option string) : result (list string) :=
  get_ancestors_loop fuel T rootnode node [].

(** ** The worked example of the design notes

    Root [R] at height 2 with children [A] and [B]; [A] at height 1 with
    the leaves [a1] and [a2]; [B] is a leaf.  [R] hangs below the sentinel
    label [root], as the loader writes it for a missing parent. *)
Definition leaf_row (c p : string) (px : Q) : row :=
  Row px 0 true c p "#000000".
Definition node_row (c p : string) (px py : Q) : row :=
  Row px py false c p "#000000".

Definition example_tree : HTree :=
  [ leaf_row "a1" "A" 0; leaf_row "a2" "A" 1; leaf_row "B" "R" 2;
    node_row "A" "R" (1#2) 1; node_row "R" "root" (5#4) 2 ].

(** ** [HTree.get_descendants]

    A breadth-first walk over a work list: the head is popped, its children
    are appended to the work list and to the output.  With [leafonly] the
    output goes through a Python [set]; the order of the resulting list is
    the order in which the set is iterated, here the order of [elements]. *)
Fixpoint get_descendants_loop (fuel : nat) (T : HTree)
    (current_node descendants : list string) : result (list string) :=
  match fuel with
  | O => OutOfFuel
  | S fuel' =>
    match current_node with
    | [] => Ok descendants
    | parent :: current_node =>
      let next_node := child_where_parent T parent in
      get_descendants_loop fuel' T (current_node ++ next_node)
                           (descendants ++ next_node)
    end
  end.

Definition get_descendants (fuel : nat) (T : HTree) (node : string)
    (leafonly : bool) : result (list string) :=
  let current_node := child_where_parent T node in
  descendants ← get_descendants_loop fuel T current_node current_node;
  if leafonly then
    Ok (elements (list_to_set descendants ∩ list_to_set (leaf_names T)
                  : gset string))
  else Ok descendants.

(** ** numpy helpers used by [get_mergeseq] and [simplify_tree] *)

(** [np.unique]: the distinct values, sorted. *)
Definition np_unique (l : list string) : list string :=
  merge_sort String.le (remove_dups l).

(** [np.setdiff1d(ar1, ar2)]: the sorted distinct values of [ar1] that are
    not in [ar2]. *)
Definition np_setdiff1d (ar1 ar2 : list string) : list string :=
  filter (λ s, s ∉ ar2) (np_unique ar1).

(** [np.max] of a non-empty array.  On an empty array numpy raises; the
    callers below only evaluate it on the heights of a tree that has a
    row. *)
Definition np_max (ys : list Q) : Q :=
  match ys with
  | [] => 0
  | y0 :: ys' => foldl Qmax y0 ys'
  end.

(** Entry [i] of an array of heights. *)
Definition key (ys : list Q) (i : nat) : Q := default 0%Q (ys !! i).

(** [np.argsort] with its default [kind]: a permutation of the indices
    that lists the entries in ascending order.  numpy documents the default
    kind as not stable, so the order it gives to equal entries is not part
    of the interface. *)
Class ArgSort : Type := {
  argsort : list Q → list nat;
  argsort_perm ys : argsort ys ≡ₚ seq 0 (length ys);
  argsort_sorted ys :
    StronglySorted (λ i j, key ys i <= key ys j)%Q (argsort ys)
}.

(** An [ArgSort] that keeps equal entries in index order, as
    [kind="stable"] does. *)
Definition stable_argsort (S : ArgSort) : Prop :=
  ∀ ys, StronglySorted
          (λ i j, key ys i < key ys j ∨ (key ys i == key ys j ∧ (i < j)%nat))%Q
          (argsort ys).

(** Index sorting by insertion.  Indices are inserted from the last to the
    first; [i] is put in front of the first [j] with [before yi yj]. *)
Fixpoint insert_index (before : Q → Q → bool) (ys : list Q) (i : nat)
    (sorted : list nat) : list nat :=
  match sorted with
  | [] => [i]
  | j :: rest =>
    if before (key ys i) (key ys j) then i :: sorted
    else j :: insert_index before ys i rest
  end.

Definition insertion_argsort (before : Q → Q → bool) (ys : list Q) : list nat :=
  foldr (insert_index before ys) [] (seq 0 (length ys)).

(** *** The sort behind [np.argsort]

    For an array of doubles the default kind runs numpy's generic index
    introsort ([aquicksort] in [npysort/quicksort]; builds with a vectorised
    argsort take another route, with another order of ties) on the index array
    [0, 1, ..., n-1]: a partition of more than 17 entries is split around
    the median of its first, middle and last entry, a shorter one is sorted
    by insertion.  The pointers of the C code are positions in [tosort]
    here.  At the depth limit the C code switches to heapsort; that branch
    is not modelled and gives [None]. *)

(** Strict comparison of two heights. *)
Definition qlt_bool (a b : Q) : bool := negb (Qle_bool b a).

(** [*p] and [v[*p]] for the position [p]. *)
Definition at_pos (tosort : list nat) (p : nat) : nat := default 0 (tosort !! p).
Definition val_at (v : list Q) (tosort : list nat) (p : nat) : Q :=
  key v (at_pos tosort p).

(** [INTP_SWAP] of the entries at the positions [p] and [q]. *)
Definition intp_swap (tosort : list nat) (p q : nat) : list nat :=
  <[p := at_pos tosort q]> (<[q := at_pos tosort p]> tosort).

(** The three conditional swaps that put the median in the middle. *)
Definition median_of_three (v : list Q) (tosort : list nat) (pl pm pr : nat)
    : list nat :=
  let tosort :=
    if qlt_bool (val_at v tosort pm) (val_at v tosort pl)
    then intp_swap tosort pm pl else tosort in
  let tosort :=
    if qlt_bool (val_at v tosort pr) (val_at v tosort pm)
    then intp_swap tosort pr pm else tosort in
  if qlt_bool (val_at v tosort pm) (val_at v tosort pl)
  then intp_swap tosort pm pl else tosort.

(** [do ++pi; while (v[*pi] < vp)] *)
Fixpoint scan_up (fuel : nat) (v : list Q) (tosort : list nat) (vp : Q)
    (pi : nat) : nat :=
  match fuel with
  | O => S pi
  | S fuel' =>
    if qlt_bool (val_at v tosort (S pi)) vp
    then scan_up fuel' v tosort vp (S pi) else S pi
  end.

(** [do --pj; while (vp < v[*pj])] *)
Fixpoint scan_down (fuel : nat) (v : list Q) (tosort : list nat) (vp : Q)
    (pj : nat) : nat :=
  match fuel with
  | O => pred pj
  | S fuel' =>
    if qlt_bool vp (val_at v tosort (pred pj))
    then scan_down fuel' v tosort vp (pred pj) else pred pj
  end.

(** The [for (;;)] loop of the partition; it returns [tosort] and [pi]. *)
Fixpoint partition_loop (fuel : nat) (v : list Q) (vp : Q) (tosort : list nat)
    (pi pj : nat) : list nat * nat :=
  match fuel with
  | O => (tosort, pi)
  | S fuel' =>
    let pi := scan_up (length tosort) v tosort vp pi in
    let pj := scan_down (length tosort) v tosort vp pj in
    if decide (pj ≤ pi) then (tosort, pi)
    else partition_loop fuel' v vp (intp_swap tosort pi pj) pi pj
  end.

(** [while (pj > pl && vp < v[*pk]) *pj-- = *pk--;] with [pk = pj - 1]. *)
Fixpoint shift_up (fuel : nat) (v : list Q) (tosort : list nat) (vp : Q)
    (pl pj : nat) : list nat * nat :=
  match fuel with
  | O => (tosort, pj)
  | S fuel' =>
    if decide (pl < pj) then
      if qlt_bool vp (val_at v tosort (pj - 1))
      then shift_up fuel' v (<[pj := at_pos tosort (pj - 1)]> tosort) vp pl (pj - 1)
      else (tosort, pj)
    else (tosort, pj)
  end.

(** The insertion sort of the positions [pl .. pr], from position [pi] on,
    with [rounds] positions to go. *)
Fixpoint insertion_pass (rounds : nat) (v : list Q) (tosort : list nat)
    (pl pi : nat) : list nat :=
  match rounds with
  | O => tosort
  | S rounds' =>
    let vi := at_pos tosort pi in
    let vp := key v vi in
    let '(tosort, pj) := shift_up (length tosort) v tosort vp pl pi in
    insertion_pass rounds' v (<[pj := vi]> tosort) pl (S pi)
  end.

(** The outer loop.  [top] says that control is at the head of [while (1)],
    where the depth is tested; [stack] holds the partitions put aside, each
    with its depth. *)
Fixpoint aquicksort_loop (fuel : nat) (v : list Q) (tosort : list nat)
    (pl pr : nat) (stack : list (nat * nat * Z)) (cdepth : Z) (top : bool)
    : option (list nat) :=
  match fuel with
  | O => None
  | S fuel' =>
    if top && bool_decide (cdepth < 0)%Z then None
    else if decide (16 < pr - pl) then
      let pm := pl + (pr - pl) / 2 in
      let tosort := median_of_three v tosort pl pm pr in
      let vp := val_at v tosort pm in
      let tosort := intp_swap tosort pm (pr - 1) in
      let '(tosort, pi) :=
        partition_loop (length tosort) v vp tosort pl (pr - 1) in
      let tosort := intp_swap tosort pi (pr - 1) in
      let cdepth := (cdepth - 1)%Z in
      if decide (pi - pl < pr - pi) then
        aquicksort_loop fuel' v tosort pl (pi - 1)
                        ((pi + 1, pr, cdepth) :: stack) cdepth false
      else
        aquicksort_loop fuel' v tosort (pi + 1) pr
                        ((pl, pi - 1, cdepth) :: stack) cdepth false
    else
      let tosort := insertion_pass (pr - pl) v tosort pl (S pl) in
      match stack with
      | [] => Some tosort
      | (pl, pr, cdepth) :: stack =>
        aquicksort_loop fuel' v tosort pl pr stack cdepth true
      end
  end.

Definition aquicksort (v : list Q) : option (list nat) :=
  let num := length v in
  aquicksort_loop (2 * num + 2) v (seq 0 num) 0 (num - 1) []
                  (2 * Z.log2 (Z.of_nat num)) true.

(** [l] lists the indices of [ys] with the entries in ascending order. *)
Definition sorts (ys : list Q) (l : list nat) : Prop :=
  l ≡ₚ seq 0 (length ys) ∧
  StronglySorted (λ i j, key ys i <= key ys j)%Q l.

#[global] Instance Qle_dec : RelDecision Qle.
Proof.
  intros a b. destruct (Qlt_le_dec b a) as [Hlt|Hle].
  - right. by apply Qlt_not_le.
  - by left.
Defined.

#[global] Instance sorts_dec (ys : list Q) (l : list nat) : Decision (sorts ys l).
Proof. unfold sorts. apply _. Defined.

(** The index array that [np.argsort] returns: the one [aquicksort] leaves
    behind.  The result is checked, so that the function is a sort also
    where the model above gives up. *)
Definition np_argsort (ys : list Q) : list nat :=
  match aquicksort ys with
  | Some l => if decide (sorts ys l) then l else insertion_argsort Qle_bool ys
  | None => insertion_argsort Qle_bool ys
  end.

(** Array indexing by an index array: [a[ind]]. *)
Definition take_indices {A : Type} (a : list A) (ind : list nat) : result (list A) :=
  match mapM (λ i, a !! i) ind with
  | Some l => Ok l
  | None => Raise IndexError
  end.

(** ** [HTree.get_mergeseq] *)

(** [self.y[self.child == label]] *)
Definition y_where_child (T : HTree) (c : string) : list Q :=
  y <$> filter (λ r, child r = c) T.

(** The list [y] built by the first loop: one height per candidate that
    is not a child, and the heights of all its rows otherwise. *)
Definition merge_heights (T : HTree) (labels : list string) : list Q :=
  labels ≫= (λ label,
    if decide (label ∈ child <$> T) then y_where_child T label
    else [np_max (y <$> T) + (1#10)]%Q).

(** The [while len(ordered_merge_parents) > 1] loop. *)
Fixpoint merge_loop (T : HTree) (ordered_merge_parents : list string)
    : list (list string * string) :=
  match ordered_merge_parents with
  | parent :: (_ :: _) as rest =>
    (child_where_parent T parent, parent) :: merge_loop T rest
  | _ => []
  end.

Definition merge_candidates (T : HTree) : list string :=
  np_setdiff1d (parent <$> T) (leaf_names T).

Definition get_mergeseq `{ArgSort} (T : HTree)
    : result (list (list string * string)) :=
  let ordered_merge_parents := merge_candidates T in
  let y := merge_heights T ordered_merge_parents in
  let ind := argsort y in
  ordered_merge_parents ← take_indices ordered_merge_parents ind;
  Ok (merge_loop T ordered_merge_parents).

(** ** [do_merges] *)

(** What a caller may pass as [labels]. *)
Inductive label_seq : Type :=
  | NdArray (a : list string)
  | PyList (a : list string)
  | PyTuple (a : list string).

(** [labels[labels == c_node] = p_node] *)
Definition relabel (p_node : string) (labels : list string) (c_node : string)
    : list string :=
  (λ l, if decide (l = c_node) then p_node else l) <$> labels.

(** The [for i in range(n_merges)] loop, from round [i] on, with [rounds]
    rounds left; the [else] branch is the [break]. *)
Fixpoint do_merges_loop (labels : list string)
    (list_changes : list (list string * string)) (i rounds : nat) : list string :=
  match rounds with
  | O => labels
  | S rounds' =>
    match list_changes !! i with
    | Some (c_nodes_list, p_node) =>
      do_merges_loop (foldl (relabel p_node) labels c_nodes_list)
                     list_changes (S i) rounds'
    | None => labels
    end
  end.

(** [do_merges] works on its argument in place: the first component is the
    argument object after the call, the second the outcome.  Printing
    ([verbose]) is not modelled. *)
Definition do_merges (labels : label_seq)
    (list_changes : list (list string * string)) (n_merges : nat)
    : label_seq * result label_seq :=
  match labels with
  | NdArray a =>
    let a' := do_merges_loop a list_changes 0 n_merges in
    (NdArray a', Ok (NdArray a'))
  | _ => (labels, Raise AssertionError)
  end.

(** ** [simplify_tree] *)

(** The order of [value_counts]: greater counts first. *)
Definition count_ge (kc1 kc2 : string * nat) : Prop := (kc2.2 ≤ kc1.2)%nat.

#[global] Instance count_ge_dec : RelDecision count_ge.
Proof. intros kc1 kc2. unfold count_ge. apply _. Defined.

(** [pd.Series(a).value_counts()]: the distinct values with their number of
    occurrences, by decreasing count.  The order that pandas gives to equal
    counts is not used by any statement below. *)
Definition value_counts (a : list string) : list (string * nat) :=
  merge_sort count_ge
             ((λ k, (k, List.length (filter (λ s, s = k) a))) <$> remove_dups a).

(** The default for [skip_nodes]: the labels that are the parent of exactly
    one row. *)
Definition default_skip_nodes (T : HTree) : list string :=
  fst <$> filter (λ kc, kc.2 = 1) (value_counts (parent <$> T)).

Definition set_parent (r : row) (p : string) : row :=
  Row (x r) (y r) (isleaf r) (child r) p (col r).

(** The row [r] after the assignment of the one value [p] to the entries
    equal to [node]. *)
Definition rewire (node p : string) (r : row) : row :=
  if decide (parent r = node) then set_parent r p else r.

(** Assignment of the successive values [vals] to the selected entries. *)
Fixpoint assign_parents (T : HTree) (node : string) (vals : list string) : HTree :=
  match T with
  | [] => []
  | r :: T' =>
    if decide (parent r = node) then
      match vals with
      | v :: vals' => set_parent r v :: assign_parents T' node vals'
      | [] => r :: T'
      end
    else r :: assign_parents T' node vals
  end.

(** [simple_tree.parent[simple_tree.parent == node] = node_parent]: a
    one-element array is broadcast; otherwise numpy wants as many values as
    selected entries and raises [ValueError] when the numbers differ. *)
Definition set_parent_where (T : HTree) (node : string)
    (node_parent : list string) : result HTree :=
  match node_parent with
  | [p] => Ok (rewire node p <$> T)
  | _ =>
    if decide (length node_parent = length (filter (λ r, parent r = node) T))
    then Ok (assign_parents T node node_parent)
    else Raise ValueError
  end.

(** Dropping the rows that have [node] as child or as parent. *)
Definition drop_node (T : HTree) (node : string) : HTree :=
  filter (λ r, ¬ (child r = node ∨ parent r = node)) T.

(** The rows of [simple_tree] after the loop over [skip_nodes]. *)
Fixpoint simplify_loop (simple_tree : HTree) (skip_nodes : list string)
    : result HTree :=
  match skip_nodes with
  | [] => Ok simple_tree
  | node :: skip_nodes =>
    let node_parent := np_unique (parent_where_child simple_tree node) in
    if decide (node_parent = []) then simplify_loop simple_tree skip_nodes
    else
      T1 ← set_parent_where simple_tree node node_parent;
      simplify_loop (drop_node T1 node) skip_nodes
  end.

(** The value that [simplify_tree] returns for a tree with the given rows. *)
Definition simplify_tree_rows (pruned_subtree : HTree)
    (skip_nodes : option (list string)) : result (HTree * list string) :=
  let skip_nodes := default (default_skip_nodes pruned_subtree) skip_nodes in
  simple_tree ← simplify_loop pruned_subtree skip_nodes;
  Ok (simple_tree, skip_nodes).

(** *** The same function on objects

    A store maps the address of an [HTree] object to its rows.
    [deepcopy] and the [HTree] constructor allocate a new object; the
    assignment to [simple_tree.parent[...]] writes into the object that
    [simple_tree] names at that point. *)
Abbreviation store := (gmap nat HTree).




(** ** [calculate_cophenetic_distance]

    The returned dataframe is indexed by leaf labels on both axes; it is
    modelled as a finite map from (row label, column label) to the entry. *)
Abbreviation frame := (gmap (string * string) Q).

(** [pd.DataFrame(np.zeros(...), columns=leaf_list, index=leaf_list)] *)
Definition zeros (leaf_list : list string) : frame :=
  list_to_map (leaf_list ≫= λ a, (λ b, ((a, b), 0%Q)) <$> leaf_list).

(** [l.pop()]: the last element and the list without it. *)
Definition py_pop (l : list string) : option (list string * string) :=
  match reverse l with
  | [] => None
  | a :: r => Some (reverse r, a)
  end.

(** [subtree_df.loc[subtree_df["child"] == this_node, "y"].iloc[0]] *)
Definition y_of_child (T : HTree) (this_node : string) : result Q :=
  match y_where_child T this_node with
  | v :: _ => Ok v
  | [] => Raise IndexError
  end.

(** The [while ancestors_i and (not found)] loop; [n] bounds the number of
    rounds and is the length of [ancestors_i] at the call. *)
Fixpoint common_ancestor_loop (n : nat) (T : HTree) (lj li : string)
    (ancestors_i ancestors_j : list string) (df_distance : frame)
    : result frame :=
  match n with
  | O => Ok df_distance
  | S n' =>
    match py_pop ancestors_i with
    | None => Ok df_distance
    | Some (ancestors_i, this_node) =>
      if decide (this_node ∈ ancestors_j) then
        d ← y_of_child T this_node;
        Ok (<[(lj, li) := d]> df_distance)
      else common_ancestor_loop n' T lj li ancestors_i ancestors_j df_distance
    end
  end.

(** The body of the two nested [for] loops. *)
Definition distance_cell (fuel : nat) (T : HTree) (li lj : string)
    (df_distance : frame) : result frame :=
  ancestors_i ← get_ancestors fuel T li None;
  let ancestors_i := li :: ancestors_i in
  ancestors_j ← get_ancestors fuel T lj None;
  let ancestors_j := lj :: ancestors_j in
  let ancestors_i := reverse ancestors_i in
  common_ancestor_loop (length ancestors_i) T lj li ancestors_i ancestors_j
                       df_distance.

(** A [for] loop with a state. *)
Fixpoint for_each {A St : Type} (l : list A) (body : A → St → result St)
    (s : St) : result St :=
  match l with
  | [] => Ok s
  | a :: l' => s' ← body a s; for_each l' body s'
  end.

Definition calculate_cophenetic_distance (fuel : nat) (subtree : HTree)
    : result frame :=
  let leaf_list := leaf_names subtree in
  for_each leaf_list (λ li,
    for_each leaf_list (λ lj, distance_cell fuel subtree li lj))
    (zeros leaf_list).

(** ** [HTree.get_all_descendants]

    One call of [get_descendants] per label of the tree, in the order of
    [np.unique]; the results go into a dict keyed by the label. *)
Definition get_all_descendants (fuel : nat) (T : HTree) (leafonly : bool)
    : result (gmap string (list string)) :=
  for_each (np_unique ((child <$> T) ++ (parent <$> T)))
    (λ key descendant_dict,
       descendants ← get_descendants fuel T key leafonly;
       Ok (<[key := descendants]> descendant_dict))
    ∅.

(** ** [HTree.get_subtree]

    The local variable [subtree_df] is bound only in the first branch of the
    [if]; the other branch prints a message and goes on to the [return],
    which reads the variable: Python raises [UnboundLocalError] there. *)
Inductive subtree_result : Type :=
  | Subtree (T : HTree)
  | UnboundLocalError
  | SubtreeRaise (e : exn)
  | SubtreeOutOfFuel.

Definition get_subtree (fuel : nat) (T : HTree) (node : string)
    : subtree_result :=
  match get_descendants fuel T node false with
  | Ok descendants =>
    let subtree_node_list := descendants ++ [node] in
    if decide (1 < length subtree_node_list) then
      Subtree (filter (λ r, child r ∈ subtree_node_list) T)
    else UnboundLocalError
  | Raise e => SubtreeRaise e
  | OutOfFuel => SubtreeOutOfFuel
  end.

(** ** [HTree.update_layout]

    The method writes into [self.x]; the model returns the rows of the
    object after the call.  [np.mean] is a parameter: the statements hold
    for whatever value it computes from the selected positions.  Its value
    on an empty selection (nan in numpy, which a rational cannot hold) is
    reached only for a node without leaves below it. *)
Definition set_x (r : row) (v : Q) : row :=
  Row v (y r) (isleaf r) (child r) (parent r) (col r).

(** [self.x[self.child == c] = v] *)
Definition set_x_where (T : HTree) (c : string) (v : Q) : HTree :=
  (λ r, if decide (child r = c) then set_x r v else r) <$> T.

(** The first loop: the leaves get the positions [new_x], [new_x + 1], ...
    in the order of the sorted array. *)
Fixpoint spread_leaves (T : HTree) (sorted : list string) (new_x : nat)
    : HTree :=
  match sorted with
  | [] => T
  | this_child :: sorted =>
    spread_leaves (set_x_where T this_child (inject_Z (Z.of_nat new_x)))
                  sorted (S new_x)
  end.

Section update_layout.
Context `{ArgSort}.
Variable np_mean : list Q → Q.

(** The body of the second loop. *)
Definition place_parent (fuel : nat) (node : string) (T : HTree)
    : result HTree :=
  descendant_leaf_nodes ← get_descendants fuel T node true;
  let descendant_leaf_x :=
    x <$> filter (λ r, child r ∈ descendant_leaf_nodes) T in
  Ok (set_x_where T node (np_mean descendant_leaf_x)).

Definition update_layout (fuel : nat) (T : HTree) : result HTree :=
  let all_child := leaf_names T in
  let all_child_x := x <$> filter (λ r, isleaf r = true) T in
  let sortind := argsort all_child_x in
  sorted ← take_indices all_child sortind;
  let T := spread_leaves T sorted 0 in
  let parents := child <$> filter (λ r, isleaf r = false) T in
  for_each parents (place_parent fuel) T.

End update_layout.

(** The mean in exact arithmetic, as a reduced fraction. *)
Definition q_mean (l : list Q) : Q :=
  Qred (foldr Qplus 0 l / inject_Z (Z.of_nat (length l)))%Q.

(** ** [calculate_wasserstein_distance]: the linear program

    The function builds the arguments of [scipy.optimize.linprog], calls the
    solver and returns what it finds.  The solver is outside the model; the
    definition below is the program that is handed to it: the cost vector,
    the equality constraints [A_eq x = b_eq] and the bounds.  The matrix of
    a transport plan is flattened row by row, as [flatten] does. *)
Record linear_program : Type := LinearProgram {
  cost_vector : list Q;
  A_eq : list (list Q);
  b_eq : list Q;
  bounds : list (Q * option Q)
}.

(** [np.zeros((n, m))] *)
Definition np_zeros (n m : nat) : list (list Q) :=
  replicate n (replicate m 0%Q).

(** [np.zeros((n, n))] after [row_constraint[i, :] = 1] *)
Definition row_constraint (n i : nat) : list (list Q) :=
  <[i := replicate n 1%Q]> (np_zeros n n).

(** [np.zeros((n, n))] after [col_constraint[:, j] = 1] *)
Definition col_constraint (n j : nat) : list (list Q) :=
  (λ row, <[j := 1%Q]> row) <$> np_zeros n n.

(** The lines up to the call of [linprog].  [P[i]] and [Q[j]] are read for
    the indices below [len(P)]; a shorter [Q] raises [IndexError]. *)
Definition wasserstein_linprog_arguments (P Q_ : list Q) (D : list (list Q))
    : result linear_program :=
  let n := length P in
  let cost_vector := concat D in
  let rows := (λ i, concat (row_constraint n i)) <$> seq 0 n in
  if decide (n ≤ length Q_) then
    let cols := (λ j, concat (col_constraint n j)) <$> seq 0 n in
    Ok (LinearProgram cost_vector (rows ++ cols) (P ++ take n Q_)
                      (replicate (n * n) (0%Q, None)))
  else Raise IndexError.

(** ** [Node] and [get_valid_classifications]

    [C_list] and [P_list] are the arrays of child and parent labels.  A
    [Node] keeps its name, the children [C_list[P_list == name]] and the
    parents [P_list[C_list == name]]; two nodes are equal when their names
    are. *)
Record Node : Type := MkNode {
  name : string;
  C_name_list : list string;
  P_name : list string
}.

(** [a[b == name]]: the mask has the length of [b]; numpy raises
    [IndexError] when this is not the length of [a]. *)
Definition np_where_eq (a b : list string) (name : string)
    : result (list string) :=
  if decide (length a = length b)
  then Ok (fst <$> filter (λ ab, ab.2 = name) (zip a b))
  else Raise IndexError.

(** [Node(name, C_list, P_list)] *)
Definition Node_init (name : string) (C_list P_list : list string)
    : result Node :=
  C_name_list ← np_where_eq C_list P_list name;
  P_name ← np_where_eq P_list C_list name;
  Ok (MkNode name C_name_list P_name).

(** A list comprehension whose element expression can raise. *)
Fixpoint map_result {A B : Type} (f : A → result B) (l : list A)
    : result (list B) :=
  match l with
  | [] => Ok []
  | a :: l' => b ← f a; bs ← map_result f l'; Ok (b :: bs)
  end.

(** [self.children(C_list, P_list)] *)
Definition Node_children (self : Node) (C_list P_list : list string)
    : result (list Node) :=
  map_result (λ n, Node_init n C_list P_list) (C_name_list self).

(** [l.remove(node)]: the first item equal to [node] goes; [ValueError]
    when there is none. *)
Fixpoint list_remove (node : Node) (l : list Node) : result (list Node) :=
  match l with
  | [] => Raise ValueError
  | a :: l' =>
    if decide (name a = name node) then Ok l'
    else l'' ← list_remove node l'; Ok (a :: l'')
  end.

(** [l.sort(key=lambda x: x.name)]: a stable sort, here by insertion from
    the right; a node goes in front of the first node whose name is not
    smaller. *)
Fixpoint insert_node (node : Node) (l : list Node) : list Node :=
  match l with
  | [] => [node]
  | a :: l' =>
    if decide (String.le (name node) (name a)) then node :: l
    else a :: insert_node node l'
  end.

Definition sort_by_name (l : list Node) : list Node :=
  foldr insert_node [] l.

(** [sorted(names)] for a list of strings. *)
Definition py_sorted (names : list string) : list string :=
  merge_sort String.le names.

(** The function is recursive on lists that need not get shorter; [fuel]
    bounds the depth of the recursion.  [valid_classes] is one Python list
    that every call appends to and returns; the model threads it through
    the loop.  (The caller's [current_node_list] is sorted in place; the
    model returns [valid_classes] only.) *)
Fixpoint get_valid_classifications (fuel : nat) (current_node_list : list Node)
    (C_list P_list : list string) (valid_classes : list (list string))
    : result (list (list string)) :=
  match fuel with
  | O => OutOfFuel
  | S fuel' =>
    let current_node_list := sort_by_name current_node_list in
    let valid_classes :=
      valid_classes ++ [py_sorted (name <$> current_node_list)] in
    for_each current_node_list (λ node valid_classes,
      children_node_list ← Node_children node C_list P_list;
      if decide (0 < length children_node_list) then
        current_node_list_copy ← list_remove node current_node_list;
        let current_node_list_copy :=
          current_node_list_copy ++ children_node_list in
        if decide (py_sorted (name <$> current_node_list_copy) ∈ valid_classes)
        then Ok valid_classes
        else get_valid_classifications fuel' current_node_list_copy
                                       C_list P_list valid_classes
      else Ok valid_classes)
      valid_classes
  end.

(** ** Well-formed trees

    The invariants of the data model: one row per node; the leaf flag is
    set exactly on the nodes without children; leaves have height 0.  Two
    more are implicit in it: the rows form a tree, so there is no cycle,
    which is stated with a rank that grows from child to parent; and the
    label of a node is not the empty string (the loader reads an empty
    field as a missing value).  A parent label without a row of its own is
    a root sentinel, so that every parent label is a node or a sentinel. *)
Definition acyclic (T : HTree) : Prop :=
  ∃ rank : string → nat, ∀ r, r ∈ T → rank (child r) < rank (parent r).

Record valid_tree (T : HTree) : Prop := {
  valid_unique : NoDup (child <$> T);
  valid_leaf : ∀ r, r ∈ T → (isleaf r = true ↔ child_where_parent T (child r) = []);
  valid_leaf_height : ∀ r, r ∈ T → isleaf r = true → (y r == 0)%Q;
  valid_acyclic : acyclic T;
  valid_named : "" ∉ child <$> T
}.

(** A dendrogram: a well-formed tree with exactly one row whose parent is a
    root sentinel. *)
Definition root_rows (T : HTree) : list row :=
  filter (λ r, parent r ∉ child <$> T) T.

Record dendrogram (T : HTree) : Prop := {
  dendrogram_valid : valid_tree T;
  dendrogram_root : length (root_rows T) = 1
}.


(** [a] is [n] or an ancestor of [n]. *)
Inductive ancestor_or_self (T : HTree) : string → string → Prop :=
  | aos_self n : ancestor_or_self T n n
  | aos_up n p a :
      p ∈ parent_where_child T n → ancestor_or_self T p a →
      ancestor_or_self T n a.

(** [c] is the lowest common ancestor of [i] and [j]: it is above both (or
    equal), and every node above both is above [c] (or equal). *)
Definition lowest_common_ancestor (T : HTree) (i j c : string) : Prop :=
  ancestor_or_self T i c ∧ ancestor_or_self T j c ∧
  ∀ d, ancestor_or_self T i d → ancestor_or_self T j d → ancestor_or_self T c d.

(** A chain: the leaf [c] below the pass-through nodes [M] and [R]. *)
Definition chain_tree : HTree :=
  [ leaf_row "c" "M" 0; node_row "M" "R" 0 1; node_row "R" "root" 0 2 ].

(** Two rows that point at each other. *)
Definition cycle_tree : HTree :=
  [ node_row "A" "B" 0 1; node_row "B" "A" 1 1 ].

(** The merge height of a candidate: its own height when it has a row,
    and otherwise the greatest height of the tree plus 0.1. *)
Definition merge_height (T : HTree) (label : string) : Q :=
  if decide (label ∈ child <$> T) then default 0%Q (head (y_where_child T label))
  else (np_max (y <$> T) + (1#10))%Q.



(** Two internal nodes [A] and [B] at the same height below [R]. *)
Definition tie_tree : HTree :=
  [ leaf_row "a" "A" 0; leaf_row "b" "B" 1;
    node_row "A" "R" 0 1; node_row "B" "R" 1 1; node_row "R" "root" (1#2) 2 ].



(** Two leaves right below the root sentinel: a tree with two root rows. *)
Definition twin_tree : HTree :=
  [ leaf_row "a" "root" 0; leaf_row "b" "root" 1 ].


(** The path from a node upwards: the parent, its parent, and so on, as far
    as there is a row; each node on it has one parent. *)
Inductive up_path (T : HTree) : string → list string → Prop :=
  | up_path_end n : parent_where_child T n = [] → up_path T n []
  | up_path_step n p l :
      parent_where_child T n = [p] → up_path T p l → up_path T n (p :: l).

(** The first entry of [l] that occurs in [k]. *)
Fixpoint first_in (l k : list string) : option string :=
  match l with
  | [] => None
  | a :: l' => if decide (a ∈ k) then Some a else first_in l' k
  end.

(** The upward path that [get_ancestors] finds with the given fuel. *)
Definition anc_path (fuel : nat) (T : HTree) (n : string) : list string :=
  match get_ancestors fuel T n None with
  | Ok l => l
  | _ => []
  end.

(** The height of the first node on the path of [i] that is on the path of
    [j]. *)
Definition lca_height (fuel : nat) (T : HTree) (i j : string) : Q :=
  match first_in (i :: anc_path fuel T i) (j :: anc_path fuel T j) with
  | Some c => default 0%Q (head (y_where_child T c))
  | None => 0%Q
  end.

(** ** Notions used in the statements and proofs below *)

(** The weight of a label in the work list of [get_descendants]: a label
    of rank [k] weighs [(n+1)^k], where [n] is the number of rows.  A label
    outweighs all its children together. *)
Definition weight (T : HTree) (rank : string → nat) (s : string) : nat :=
  (S (length T)) ^ rank s.

(** A rank for the labels of the worked example. *)
Definition example_rank (s : string) : nat :=
  if decide (s = "root") then 3
  else if decide (s = "R") then 2
  else if decide (s = "A") then 1
  else 0.

(** Ranks for the labels of the other sample trees. *)
Definition chain_rank (s : string) : nat :=
  if decide (s = "root") then 3
  else if decide (s = "R") then 2
  else if decide (s = "M") then 1
  else 0.

Definition tie_rank (s : string) : nat :=
  if decide (s = "root") then 3
  else if decide (s = "R") then 2
  else if decide (s = "A") then 1
  else if decide (s = "B") then 1
  else 0.



(** [pcount T p]: the number of rows that have [p] as parent. *)
Definition pcount (T : HTree) (p : string) : nat :=
  length (filter (λ r, parent r = p) T).

(** The rows after the round for [node], when [node] has the one parent
    [p]. *)
Definition simplify_round (T : HTree) (node p : string) : HTree :=
  drop_node (rewire node p <$> T) node.

(** The label and the leaf flag of a row. *)
Definition tag (r : row) : string * bool := (child r, isleaf r).

(** What holds of the working tree [T] of [simplify_tree], started on
    [T0], after the rounds for the labels [processed]. *)
Record simplify_inv (T0 : HTree) (processed : list string) (T : HTree) : Prop := {
  inv_unique : NoDup (child <$> T);
  inv_count : ∀ q,
    pcount T q = pcount T0 q ∨ (pcount T q = 0 ∧ q ∉ child <$> T);
  inv_tags : (tag <$> T) `sublist_of` (tag <$> T0);
  inv_leaves : leaf_names T = leaf_names T0;
  inv_processed : ∀ q, q ∈ processed → q ∉ child <$> T
}.


(** The effect of one record of a merge sequence on the labels. *)
Definition apply_record (labels : list string) (rec : list string * string)
    : list string :=
  foldl (relabel rec.2) labels rec.1.

(** The greatest rank of a parent label. *)
Definition top_rank (T : HTree) (rank : string → nat) : nat :=
  max_list (rank ∘ parent <$> T).



(** The sum of an array, and the product of a row of [A_eq] with a
    flattened plan, in exact arithmetic. *)
Definition q_sum (l : list Q) : Q := foldr Qplus 0%Q l.

Definition q_dot (a b : list Q) : Q := q_sum (zip_with Qmult a b).

(** The node that [Node(n, C_list, P_list)] builds from the columns of a
    tree. *)
Definition tree_node (T : HTree) (n : string) : Node :=
  MkNode n (child_where_parent T n) (parent_where_child T n).

(** A list of names without the first occurrence of [n]. *)
Fixpoint remove_first (n : string) (l : list string) : list string :=
  match l with
  | [] => []
  | a :: l' => if decide (a = n) then l' else a :: remove_first n l'
  end.

(** One step from a classification to a finer one: a name that has
    children is replaced by its children. *)
Definition expand (T : HTree) (E E' : list string) : Prop :=
  ∃ n, n ∈ E ∧ child_where_parent T n ≠ [] ∧
       E' = py_sorted (remove_first n E ++ child_where_parent T n).

(** [get_valid_classifications] on the names of the nodes. *)
Fixpoint classifications (fuel : nat) (T : HTree) (names : list string)
    (valid_classes : list (list string)) : result (list (list string)) :=
  match fuel with
  | O => OutOfFuel
  | S fuel' =>
    let E := py_sorted names in
    for_each E (λ n valid_classes,
      let cs := child_where_parent T n in
      if decide (0 < length cs) then
        if decide (py_sorted (remove_first n E ++ cs) ∈ valid_classes)
        then Ok valid_classes
        else classifications fuel' T (remove_first n E ++ cs) valid_classes
      else Ok valid_classes)
      (valid_classes ++ [E])
  end.

(** * Properties *)

(** Rows of a concrete tree, one after the other. *)
Ltac each_row tac :=
  let r := fresh "r" in
  let Hr := fresh "Hr" in
  intros r Hr;
  match type of Hr with
  | _ ∈ ?T => let T' := eval hnf in T in change (r ∈ T') in Hr
  end;
  repeat (apply elem_of_cons in Hr as [->|Hr]; [tac|]);
  by apply elem_of_nil in Hr.

(** Well-formedness of a concrete tree, given a rank for its labels. *)
Ltac concrete_valid_tree rank :=
  split;
  [ compute_done
  | each_row ltac:(compute_done)
  | each_row ltac:(intros Hflag; first [discriminate Hflag|reflexivity])
  | exists rank; each_row ltac:(compute_done)
  | compute_done ].

(** ** Rows *)

Lemma filter_child_unique (T : HTree) (c : string) :
  NoDup (child <$> T) →
  filter (λ r, child r = c) T = [] ∨ ∃ r, filter (λ r, child r = c) T = [r].
Proof.
  induction T as [|r T IH]; intros Hnd; [by left|].
  rewrite fmap_cons in Hnd. apply NoDup_cons in Hnd as [Hr Hnd].
  rewrite filter_cons. destruct (decide (child r = c)) as [Hc|Hc]; [|by apply IH].
  right. exists r. f_equal.
  destruct (filter (λ r0, child r0 = c) T) as [|r' l] eqn:Hf; [done|].
  assert (Hr' : r' ∈ filter (λ r0, child r0 = c) T) by (rewrite Hf; left).
  apply list_elem_of_filter in Hr' as [Hc' Hin].
  destruct Hr. rewrite Hc, <- Hc'. by apply list_elem_of_fmap_2.
Qed.

Example example_ancestors_a1 :
  get_ancestors 4 example_tree "a1" None = Ok ["A"; "R"; "root"].
Proof. reflexivity. Qed.

(** ** Ancestors *)

Lemma parent_where_child_absent (T : HTree) (c : string) :
  c ∉ child <$> T → parent_where_child T c = [].
Proof.
  intros Hc. unfold parent_where_child.
  induction T as [|r T IH]; [done|].
  rewrite fmap_cons, not_elem_of_cons in Hc. destruct Hc as [Hne Hc].
  rewrite filter_cons. destruct (decide (child r = c)); [congruence|].
  by apply IH.
Qed.

Lemma parent_where_child_absent_iff (T : HTree) (c : string) :
  parent_where_child T c = [] ↔ c ∉ child <$> T.
Proof.
  split; [|apply parent_where_child_absent].
  intros Hnil (r & -> & Hr)%list_elem_of_fmap.
  assert (parent r ∈ parent_where_child T (child r)) as Hin.
  { apply list_elem_of_fmap_2. by apply list_elem_of_filter. }
  rewrite Hnil in Hin. by apply elem_of_nil in Hin.
Qed.

(** The accumulator is a prefix of the result, and the rest does not depend
    on it. *)
Lemma get_ancestors_loop_acc fuel T rootnode cur acc :
  get_ancestors_loop fuel T rootnode cur acc =
  (l ← get_ancestors_loop fuel T rootnode cur []; Ok (acc ++ l)).
Proof.
  revert cur acc. induction fuel as [|fuel IH]; intros cur acc; [done|].
  simpl. destruct (str_truth cur); simpl; [|by rewrite app_nil_r].
  destruct (parent_where_child T cur) as [|p [|q ps]]; simpl.
  - by rewrite app_nil_r.
  - destruct (decide (rootnode = Some p)); simpl; [done|].
    rewrite (IH p (acc ++ [p])), (IH p [p]).
    destruct (get_ancestors_loop fuel T rootnode p []); simpl; [|done..].
    by rewrite <- app_assoc.
  - done.
Qed.

(** C8, as the code has it: [get_ancestors] has no error for a missing
    node.  For a [node] that has no row of its own (in particular one that
    is absent from the tree) the first lookup is empty and the call returns
    the empty list, with or without [rootnode]. *)
Theorem get_ancestors_absent_node (T : HTree) (node : string)
    (rootnode : option string) (fuel : nat) :
  node ∉ child <$> T →
  get_ancestors (S fuel) T node rootnode = Ok [].
Proof.
  intros Hnode. unfold get_ancestors. simpl.
  rewrite (parent_where_child_absent _ _ Hnode).
  by destruct (str_truth node).
Qed.

Lemma get_ancestors_absent_node_witness :
  get_ancestors 3 example_tree "root" (Some "R") = Ok [].
Proof.
  apply (get_ancestors_absent_node example_tree "root" (Some "R") 2).
  compute_done.
Defined.

(** C8 as stated fails: a label that occurs nowhere in the worked example
    gets an empty list of ancestors, not an error. *)
Lemma get_ancestors_absent_counterexample :
  ("ghost" ∉ (child <$> example_tree) ++ (parent <$> example_tree)) ∧
  get_ancestors 1 example_tree "ghost" None = Ok [].
Proof. split; [compute_done|reflexivity]. Qed.

Lemma get_ancestors_loop_rootnode fuel T cur rootnode anc :
  get_ancestors_loop fuel T None cur [] = Ok anc →
  rootnode ∈ anc →
  ∃ pre post, anc = (pre ++ rootnode :: post) ∧ (rootnode ∉ pre) ∧
    get_ancestors_loop fuel T (Some rootnode) cur [] = Ok (pre ++ [rootnode]).
Proof.
  revert cur anc. induction fuel as [|fuel IH]; intros cur anc; [done|].
  simpl. destruct (str_truth cur); [|intros [= <-] []%elem_of_nil].
  destruct (parent_where_child T cur) as [|p [|q ps]]; simpl;
    [intros [= <-] []%elem_of_nil| |done].
  rewrite get_ancestors_loop_acc.
  destruct (get_ancestors_loop fuel T None p []) as [l| |] eqn:Hl; [|done..].
  simpl. intros [= <-] Hin.
  destruct (decide (Some rootnode = Some p)) as [[= ->]|Hne].
  - exists [], l. split_and!; [done|apply not_elem_of_nil|done].
  - apply elem_of_cons in Hin as [->|Hin]; [done|].
    destruct (IH p l Hl Hin) as (pre & post & -> & Hpre & Hrun).
    exists (p :: pre), post. split_and!; [done| |].
    + rewrite not_elem_of_cons. split; [congruence|done].
    + rewrite get_ancestors_loop_acc, Hrun. done.
Qed.

(** C9, as the code has it: the walk appends the parent before it compares
    it with [rootnode].  When [rootnode] lies on the ancestor path of
    [node], the result is that path up to and including the first
    occurrence of [rootnode], which is its last element. *)
Theorem get_ancestors_rootnode_inclusive (T : HTree) (node rootnode : string)
    (fuel : nat) (anc : list string) :
  get_ancestors fuel T node None = Ok anc →
  rootnode ∈ anc →
  ∃ pre post, anc = (pre ++ rootnode :: post) ∧ (rootnode ∉ pre) ∧
    get_ancestors fuel T node (Some rootnode) = Ok (pre ++ [rootnode]).
Proof. apply get_ancestors_loop_rootnode. Qed.

Lemma get_ancestors_rootnode_inclusive_witness :
  ∃ pre post, ["A"; "R"; "root"] = (pre ++ "R" :: post) ∧ ("R" ∉ pre) ∧
    get_ancestors 4 example_tree "a1" (Some "R") = Ok (pre ++ ["R"]).
Proof.
  apply (get_ancestors_rootnode_inclusive example_tree "a1" "R" 4).
  - reflexivity.
  - compute_done.
Defined.

(** C9 as stated fails on the worked example: with [rootnode = "R"] the
    ancestors of [a1] are [A] and [R]; [R] is in the list. *)
Lemma get_ancestors_rootnode_counterexample :
  get_ancestors 4 example_tree "a1" (Some "R") = Ok ["A"; "R"] ∧
  "R" ∈ ["A"; "R"].
Proof. split; [reflexivity|compute_done]. Qed.

(** ** [do_merges]: the guard on [labels] *)

(** C10: [do_merges] asserts that [labels] is a numpy array before it does
    anything else.  For any other kind of sequence the call raises
    [AssertionError] and the argument object is what it was. *)
Theorem do_merges_requires_ndarray (labels : label_seq)
    (list_changes : list (list string * string)) (n_merges : nat) :
  (∀ a, labels ≠ NdArray a) →
  do_merges labels list_changes n_merges = (labels, Raise AssertionError).
Proof. intros Hnot. destruct labels as [a| |]; [by destruct (Hnot a)|done..]. Qed.

Lemma do_merges_requires_ndarray_witness :
  do_merges (PyList ["a1"; "a2"; "B"]) [(["a1"; "a2"], "A")] 1 =
  (PyList ["a1"; "a2"; "B"], Raise AssertionError).
Proof.
  apply (do_merges_requires_ndarray (PyList ["a1"; "a2"; "B"])).
  intros a. discriminate.
Defined.

Example do_merges_example :
  do_merges (NdArray ["a1"; "a2"; "B"]) [(["a1"; "a2"], "A")] 1 =
  (NdArray ["A"; "A"; "B"], Ok (NdArray ["A"; "A"; "B"])).
Proof. reflexivity. Qed.

(** ** [simplify_tree] and the objects of its caller *)






(** ** Descendants: termination *)

Section descendants_terminate.
Variable T : HTree.
Variable rank : string → nat.
Hypothesis rank_up : ∀ r, r ∈ T → rank (child r) < rank (parent r).

Lemma weight_pos s : 0 < weight T rank s.
Proof. unfold weight. apply Nat.neq_0_lt_0, Nat.pow_nonzero. lia. Qed.

Lemma weight_children_bound (p : string) (rows : list row) :
  (∀ r, r ∈ rows → r ∈ T ∧ parent r = p) →
  sum_list_with (weight T rank) (child <$> rows) * S (length T)
  ≤ length rows * weight T rank p.
Proof.
  induction rows as [|r rows IH]; intros Hrows; simpl; [lia|].
  destruct (Hrows r) as [HrT Hrp]; [by left|].
  assert (Hr : weight T rank (child r) * S (length T) ≤ weight T rank p).
  { unfold weight. pose proof (rank_up r HrT) as Hlt. rewrite Hrp in Hlt.
    replace (rank p) with (S (rank p - 1)) by lia.
    rewrite Nat.pow_succ_r'.
    assert (S (length T) ^ rank (child r) ≤ S (length T) ^ (rank p - 1)).
    { apply Nat.pow_le_mono_r; lia. }
    nia. }
  assert (IH' := IH (λ r' Hr', Hrows r' (list_elem_of_further _ _ _ Hr'))).
  change (list_fmap row string child rows) with (child <$> rows).
  nia.
Qed.

Lemma weight_children_lt (p : string) :
  sum_list_with (weight T rank) (child_where_parent T p) < weight T rank p.
Proof.
  unfold child_where_parent.
  pose proof (weight_children_bound p (filter (λ r, parent r = p) T)) as Hb.
  pose proof (length_filter (λ r, parent r = p) T) as Hlen.
  pose proof (weight_pos p) as Hpos.
  assert (Hb' := Hb (λ r Hr, proj1 (and_comm _ _) (proj1 (list_elem_of_filter _ _ _) Hr))).
  nia.
Qed.

Lemma get_descendants_loop_terminates (m : nat) :
  ∀ current_node descendants,
    sum_list_with (weight T rank) current_node ≤ m →
    ∃ l, ∀ fuel, m < fuel →
      get_descendants_loop fuel T current_node descendants = Ok l.
Proof.
  induction m as [|m IH]; intros q acc Hq.
  - destruct q as [|p q].
    + exists acc. intros [|fuel] ?; [lia|done].
    + simpl in Hq. pose proof (weight_pos p). lia.
  - destruct q as [|p q].
    + exists acc. intros [|fuel] ?; [lia|done].
    + destruct (IH (q ++ child_where_parent T p)
                   (acc ++ child_where_parent T p)) as [l Hl].
      { rewrite sum_list_with_app. simpl in Hq.
        pose proof (weight_children_lt p). lia. }
      exists l. intros [|fuel] ?; [lia|]. simpl. apply Hl. lia.
Qed.
End descendants_terminate.

(** Two rows for the same node are one row. *)
Lemma row_unique (T : HTree) (r1 r2 : row) :
  NoDup (child <$> T) → r1 ∈ T → r2 ∈ T → child r1 = child r2 → r1 = r2.
Proof.
  intros Hnd H1 H2 Hc.
  assert (r1 ∈ filter (λ r, child r = child r1) T) as Hf1
    by (by apply list_elem_of_filter).
  assert (r2 ∈ filter (λ r, child r = child r1) T) as Hf2
    by (by apply list_elem_of_filter).
  destruct (filter_child_unique T (child r1) Hnd) as [Hf|[z Hf]];
    rewrite Hf in Hf1, Hf2.
  - by apply elem_of_nil in Hf1.
  - apply list_elem_of_singleton in Hf1, Hf2. congruence.
Qed.

Lemma child_where_parent_elem (T : HTree) (p c : string) :
  c ∈ child_where_parent T p ↔ ∃ r, r ∈ T ∧ child r = c ∧ parent r = p.
Proof.
  unfold child_where_parent. rewrite list_elem_of_fmap. split.
  - intros (r & -> & [Hp Hr]%list_elem_of_filter). by exists r.
  - intros (r & Hr & <- & Hp). exists r. split; [done|].
    by apply list_elem_of_filter.
Qed.

Lemma child_where_parent_NoDup (T : HTree) (p : string) :
  NoDup (child <$> T) → NoDup (child_where_parent T p).
Proof.
  intros Hnd. apply (sublist_NoDup _ (child <$> T)); [exact Hnd|].
  unfold child_where_parent. apply fmap_sublist, sublist_filter.
Qed.

Section descendants_once.
Variable T : HTree.
Variable rank : string → nat.
Variable node : string.
Hypothesis rank_up : ∀ r, r ∈ T → rank (child r) < rank (parent r).
Hypothesis unique : NoDup (child <$> T).

(** The output so far is [done ++ current_node]: the names whose children
    have been appended, then the work list.  Every name in it is below
    [node], and is a child of [node] or of a name in [done]. *)
Lemma get_descendants_loop_once (fuel : nat) :
  ∀ done current_node l,
    NoDup (done ++ current_node) →
    (∀ d, d ∈ done ++ current_node → rank d < rank node) →
    (∀ d, d ∈ done ++ current_node →
       ∃ r, r ∈ T ∧ child r = d ∧ (parent r = node ∨ parent r ∈ done)) →
    get_descendants_loop fuel T current_node (done ++ current_node) = Ok l →
    NoDup l.
Proof.
  induction fuel as [|fuel IH]; intros P q l Hnd Hrank Hpar; [done|].
  destruct q as [|p q]; simpl; [by intros [= <-]|].
  set (ch := child_where_parent T p).
  replace ((P ++ p :: q) ++ ch) with ((P ++ [p]) ++ (q ++ ch))
    by (by rewrite <- !app_assoc).
  assert (Hp : p ∈ P ++ p :: q) by (apply elem_of_app; right; left).
  apply IH.
  - replace ((P ++ [p]) ++ q ++ ch) with ((P ++ p :: q) ++ ch)
      by (by rewrite <- !app_assoc).
    apply NoDup_app. split_and!; [done| |by apply child_where_parent_NoDup].
    intros c Hc Hch.
    apply child_where_parent_elem in Hch as (r' & Hr' & Hc' & Hp').
    destruct (Hpar c Hc) as (r & Hr & Hcr & Hparent).
    assert (r = r') as -> by (apply (row_unique T); congruence).
    rewrite Hp' in Hparent. destruct Hparent as [->|HpP].
    + specialize (Hrank _ Hp). lia.
    + apply NoDup_app in Hnd as (_ & Hdisj & _).
      apply (Hdisj p HpP). left.
  - intros d Hd.
    replace ((P ++ [p]) ++ q ++ ch) with ((P ++ p :: q) ++ ch) in Hd
      by (by rewrite <- !app_assoc).
    apply elem_of_app in Hd as [Hd|Hd]; [by apply Hrank|].
    apply child_where_parent_elem in Hd as (r & Hr & <- & Hpr).
    pose proof (rank_up r Hr). specialize (Hrank _ Hp). rewrite Hpr in *. lia.
  - intros d Hd.
    replace ((P ++ [p]) ++ q ++ ch) with ((P ++ p :: q) ++ ch) in Hd
      by (by rewrite <- !app_assoc).
    apply elem_of_app in Hd as [Hd|Hd].
    + destruct (Hpar d Hd) as (r & Hr & Hc & [Hn|HP]); exists r;
        (split_and!; [done..|]); [by left|].
      right. apply elem_of_app. by left.
    + apply child_where_parent_elem in Hd as (r & Hr & <- & Hpr).
      exists r. split_and!; [done..|]. right. rewrite Hpr.
      apply elem_of_app. right. left.
Qed.

Lemma get_descendants_once (fuel : nat) (leafonly : bool) (l : list string) :
  get_descendants fuel T node leafonly = Ok l → NoDup l.
Proof.
  unfold get_descendants.
  destruct (get_descendants_loop fuel T (child_where_parent T node)
              (child_where_parent T node)) as [d| |] eqn:Hrun; [|done..].
  simpl. destruct leafonly; intros [= <-]; [apply NoDup_elements|].
  apply (get_descendants_loop_once fuel [] (child_where_parent T node));
    [by apply child_where_parent_NoDup| | |done].
  - intros d' (r & Hr & <- & <-)%child_where_parent_elem. by apply rank_up.
  - intros d' (r & Hr & <- & <-)%child_where_parent_elem.
    exists r. split_and!; [done..|by left].
Qed.
End descendants_once.

(** The walk never ends when the work list holds a label of a set in which
    every label has a child in the set: such a label stays in the work list
    or is replaced by its children. *)
Lemma get_descendants_loop_diverges (T : HTree) (S : string → Prop) :
  (∀ s, S s → ∃ c, c ∈ child_where_parent T s ∧ S c) →
  ∀ fuel current_node descendants,
    (∃ s, s ∈ current_node ∧ S s) →
    get_descendants_loop fuel T current_node descendants = OutOfFuel.
Proof.
  intros Hclosed. induction fuel as [|fuel IH]; intros q acc (s & Hs & HS); [done|].
  destruct q as [|p q]; [by apply elem_of_nil in Hs|].
  simpl. apply IH. apply elem_of_cons in Hs as [->|Hs].
  - destruct (Hclosed p HS) as (c & Hc & HSc).
    exists c. split; [|done]. apply elem_of_app. by right.
  - exists s. split; [|done]. apply elem_of_app. by left.
Qed.

(** C5, as the code has it: the walk keeps no record of the names it has
    emitted and has no error for a cycle.  For every [node] and either
    value of [leafonly]:
    - on rows without a cycle the call terminates: from some amount of fuel
      on it returns one and the same list;
    - on rows without a cycle and with one row per node, no name is in the
      result twice;
    - with a cycle below [node], that is a set of labels, one of them a
      child of [node], in which every label has a child in the set, the
      call does not come back, whatever the fuel. *)
Theorem get_descendants_terminates (T : HTree) (node : string) (leafonly : bool) :
  (acyclic T →
     ∃ fuel0 l, ∀ fuel, fuel0 ≤ fuel →
       get_descendants fuel T node leafonly = Ok l) ∧
  (acyclic T → NoDup (child <$> T) →
     ∀ fuel l, get_descendants fuel T node leafonly = Ok l → NoDup l) ∧
  (∀ S : string → Prop,
     (∀ s, S s → ∃ c, c ∈ child_where_parent T s ∧ S c) →
     (∃ s, s ∈ child_where_parent T node ∧ S s) →
     ∀ fuel, get_descendants fuel T node leafonly = OutOfFuel).
Proof.
  split_and!.
  - intros [rank Hrank]. unfold get_descendants.
    destruct (get_descendants_loop_terminates T rank Hrank
                (sum_list_with (weight T rank) (child_where_parent T node))
                (child_where_parent T node) (child_where_parent T node))
      as [l Hl]; [done|].
    exists (S (sum_list_with (weight T rank) (child_where_parent T node))).
    destruct leafonly; eexists; intros fuel Hfuel; rewrite Hl by lia; reflexivity.
  - intros [rank Hrank] Hnd fuel l. by apply (get_descendants_once T rank).
  - intros S Hclosed Hstart fuel. unfold get_descendants.
    by rewrite (get_descendants_loop_diverges T S Hclosed).
Qed.

Lemma example_tree_acyclic : acyclic example_tree.
Proof. exists example_rank. each_row ltac:(compute_done). Qed.

Lemma get_descendants_terminates_witness :
  ∃ fuel0 l, ∀ fuel, fuel0 ≤ fuel →
    get_descendants fuel example_tree "R" true = Ok l.
Proof.
  apply (proj1 (get_descendants_terminates example_tree "R" true)).
  exists example_rank. each_row ltac:(compute_done).
Defined.

Example get_descendants_example :
  get_descendants 5 example_tree "R" false = Ok ["B"; "A"; "a1"; "a2"].
Proof. reflexivity. Qed.

(** C5 as stated fails on two rows that name each other as parent: no
    amount of fuel lets [get_descendants] come back, with a result or with
    an error. *)
Lemma get_descendants_cycle_counterexample :
  ¬ ∃ fuel, get_descendants fuel cycle_tree "A" false ≠ OutOfFuel.
Proof.
  intros [fuel Hfuel]. apply Hfuel. unfold get_descendants.
  rewrite (get_descendants_loop_diverges cycle_tree (λ s, s = "A" ∨ s = "B")).
  - done.
  - intros s [->| ->]; [exists "B"|exists "A"]; split; [compute_done|by right|compute_done|by left].
  - exists "B". split; [compute_done|by right].
Qed.

(** ** [simplify_tree]: what a round does, and idempotence *)

Lemma np_unique_nil : np_unique [] = [].
Proof. reflexivity. Qed.

Lemma np_unique_singleton (s : string) : np_unique [s] = [s].
Proof. reflexivity. Qed.

Lemma simplify_loop_cons_absent (T : HTree) (node : string) (skip : list string) :
  node ∉ child <$> T →
  simplify_loop T (node :: skip) = simplify_loop T skip.
Proof.
  intros Habs. simpl. rewrite (parent_where_child_absent _ _ Habs).
  by rewrite np_unique_nil.
Qed.

Lemma simplify_loop_cons_present (T : HTree) (node : string) (skip : list string) :
  NoDup (child <$> T) → node ∈ child <$> T →
  ∃ r, r ∈ T ∧ child r = node ∧
    (∀ r', r' ∈ T → child r' = node → r' = r) ∧
    simplify_loop T (node :: skip) =
    simplify_loop (simplify_round T node (parent r)) skip.
Proof.
  intros Hnd Hin. simpl. unfold parent_where_child.
  destruct (filter_child_unique T node Hnd) as [Hf|[r Hf]].
  - apply list_elem_of_fmap in Hin as (r & Hc & Hr).
    assert (r ∈ filter (λ r, child r = node) T) as Hr'
      by (by apply list_elem_of_filter).
    rewrite Hf in Hr'. by apply elem_of_nil in Hr'.
  - assert (r ∈ filter (λ r, child r = node) T) as Hr by (rewrite Hf; left).
    apply list_elem_of_filter in Hr as [Hc Hr].
    exists r. split_and!; [done..| |].
    + intros r' Hr' Hc'.
      assert (r' ∈ filter (λ r, child r = node) T) as Hr''
        by (by apply list_elem_of_filter).
      rewrite Hf in Hr''. by apply list_elem_of_singleton in Hr''.
    + rewrite Hf. change (parent <$> [r]) with [parent r].
      rewrite np_unique_singleton. done.
Qed.

Lemma simplify_round_tags (T : HTree) (node p : string) :
  (tag <$> simplify_round T node p) `sublist_of` (tag <$> T).
Proof.
  unfold simplify_round, drop_node.
  induction T as [|r T IH]; [done|].
  rewrite !fmap_cons, filter_cons.
  assert (tag (rewire node p r) = tag r) as Htag.
  { unfold rewire. by destruct (decide (parent r = node)). }
  destruct (decide _); [rewrite fmap_cons, Htag; by apply sublist_skip|].
  by apply sublist_cons.
Qed.

Lemma child_of_tags (T : HTree) : child <$> T = fst <$> (tag <$> T).
Proof. by rewrite <- list_fmap_compose. Qed.

Lemma simplify_round_children (T : HTree) (node p : string) :
  (child <$> simplify_round T node p) `sublist_of` (child <$> T).
Proof. rewrite !child_of_tags. apply fmap_sublist, simplify_round_tags. Qed.

Lemma simplify_round_removes (T : HTree) (node p : string) :
  node ∉ child <$> simplify_round T node p.
Proof.
  intros (r & Hc & Hr)%list_elem_of_fmap.
  apply list_elem_of_filter in Hr as [Hkeep _]. apply Hkeep. by left.
Qed.

Lemma simplify_round_pcount_node (T : HTree) (node p : string) :
  pcount (simplify_round T node p) node = 0.
Proof.
  unfold pcount. apply length_zero_iff_nil.
  apply elem_of_nil_inv. intros r [Hp Hr]%list_elem_of_filter.
  apply list_elem_of_filter in Hr as [Hkeep _]. apply Hkeep. by right.
Qed.

Lemma pcount_cons (r : row) (T : HTree) (q : string) :
  pcount (r :: T) q = (if decide (parent r = q) then 1 else 0) + pcount T q.
Proof. unfold pcount. rewrite filter_cons. by destruct (decide _). Qed.

Lemma simplify_round_cons (r : row) (T : HTree) (node p : string) :
  simplify_round (r :: T) node p =
  if decide (child r = node ∨ parent (rewire node p r) = node)
  then simplify_round T node p
  else rewire node p r :: simplify_round T node p.
Proof.
  unfold simplify_round, drop_node. rewrite fmap_cons, filter_cons.
  assert (child (rewire node p r) = child r) as ->.
  { unfold rewire. by destruct (decide _). }
  destruct (decide (child r = node ∨ parent (rewire node p r) = node)) as [Hd|Hd];
    destruct (decide (¬ _)) as [Hn|Hn]; done.
Qed.

Lemma parent_rewire (node p : string) (r : row) :
  parent (rewire node p r) = if decide (parent r = node) then p else parent r.
Proof. unfold rewire. by destruct (decide _). Qed.

(** The number of children of a label other than [node] and [p] is not
    changed by a round. *)
Lemma simplify_round_pcount_other (T : HTree) (node p q : string) :
  q ≠ node → q ≠ p →
  (∀ r, r ∈ T → child r = node → parent r = p) →
  pcount (simplify_round T node p) q = pcount T q.
Proof.
  intros Hqn Hqp. induction T as [|r T IH]; intros Hrows; [done|].
  rewrite simplify_round_cons, pcount_cons.
  specialize (IH (λ r' Hr', Hrows r' (list_elem_of_further _ _ _ Hr'))).
  pose proof (Hrows r (list_elem_of_here _ _)) as Hr.
  rewrite parent_rewire.
  destruct (decide (parent r = node)) as [Hpn|Hpn];
    destruct (decide (parent r = q)) as [Hpq|Hpq];
    repeat case_decide; rewrite ?pcount_cons, ?parent_rewire;
    repeat case_decide; naive_solver lia.
Qed.

(** The parent [p] of [node] loses [node] and gains the children of
    [node]. *)
Lemma simplify_round_pcount_parent (T : HTree) (node p : string) :
  p ≠ node →
  (∀ r, r ∈ T → child r = node → parent r = p) →
  pcount (simplify_round T node p) p + length (filter (λ r, child r = node) T)
  = pcount T p + pcount T node.
Proof.
  intros Hpn. induction T as [|r T IH]; intros Hrows; [done|].
  rewrite simplify_round_cons, !pcount_cons, filter_cons.
  specialize (IH (λ r' Hr', Hrows r' (list_elem_of_further _ _ _ Hr'))).
  pose proof (Hrows r (list_elem_of_here _ _)) as Hr.
  rewrite parent_rewire.
  destruct (decide (parent r = node)) as [Hrn|Hrn];
    destruct (decide (parent r = p)) as [Hrp|Hrp];
    destruct (decide (child r = node)) as [Hcn|Hcn];
    repeat case_decide; rewrite ?pcount_cons, ?parent_rewire;
    repeat case_decide; simpl; naive_solver lia.
Qed.

Lemma pcount_fmap (T : HTree) (q : string) :
  length (filter (λ s, s = q) (parent <$> T)) = pcount T q.
Proof.
  unfold pcount. induction T as [|r T IH]; [done|].
  rewrite fmap_cons, !filter_cons.
  destruct (decide (parent r = q)); simpl; by rewrite IH.
Qed.

(** The default [skip_nodes] are the labels with exactly one child. *)
Lemma elem_of_default_skip_nodes (T : HTree) (q : string) :
  q ∈ default_skip_nodes T ↔ pcount T q = 1.
Proof.
  unfold default_skip_nodes, value_counts.
  rewrite list_elem_of_fmap. split.
  - intros ([k n] & -> & Hkn). apply list_elem_of_filter in Hkn as [Hn Hkn].
    rewrite merge_sort_Permutation in Hkn.
    apply list_elem_of_fmap in Hkn as (k' & [= -> ->] & _).
    simpl in *. by rewrite <- pcount_fmap.
  - intros Hq. exists (q, 1). split; [done|].
    apply list_elem_of_filter. split; [done|].
    rewrite merge_sort_Permutation. apply list_elem_of_fmap.
    exists q. rewrite pcount_fmap, Hq. split; [done|].
    apply elem_of_remove_dups.
    assert (Hne : filter (λ r, parent r = q) T ≠ []).
    { intros Hnil. unfold pcount in Hq. by rewrite Hnil in Hq. }
    destruct (filter (λ r, parent r = q) T) as [|r l] eqn:Hf; [done|].
    assert (r ∈ filter (λ r, parent r = q) T) as Hr by (rewrite Hf; left).
    apply list_elem_of_filter in Hr as [<- Hr]. by apply list_elem_of_fmap_2.
Qed.

Lemma pcount_one_unique (T : HTree) (q : string) (r1 r2 : row) :
  pcount T q = 1 → r1 ∈ T → r2 ∈ T → parent r1 = q → parent r2 = q → r1 = r2.
Proof.
  unfold pcount. intros Hq H1 H2 Hp1 Hp2.
  assert (r1 ∈ filter (λ r, parent r = q) T) as Hf1 by (by apply list_elem_of_filter).
  assert (r2 ∈ filter (λ r, parent r = q) T) as Hf2 by (by apply list_elem_of_filter).
  destruct (filter (λ r, parent r = q) T) as [|z [|z' l]]; simpl in Hq; try lia.
  apply list_elem_of_singleton in Hf1, Hf2. congruence.
Qed.

Lemma leaf_names_cons (r : row) (T : HTree) :
  leaf_names (r :: T) = if isleaf r then child r :: leaf_names T else leaf_names T.
Proof.
  unfold leaf_names. rewrite filter_cons.
  destruct (isleaf r); by destruct (decide _).
Qed.

(** A round that drops no leaf row keeps the list of leaf labels. *)
Lemma simplify_round_leaves (T : HTree) (node p : string) :
  (∀ r, r ∈ T → isleaf r = true →
     child r ≠ node ∧ parent (rewire node p r) ≠ node) →
  leaf_names (simplify_round T node p) = leaf_names T.
Proof.
  induction T as [|r T IH]; intros Hleaf; [done|].
  specialize (IH (λ r' Hr', Hleaf r' (list_elem_of_further _ _ _ Hr'))).
  pose proof (Hleaf r (list_elem_of_here _ _)) as Hr.
  rewrite simplify_round_cons, leaf_names_cons.
  assert (isleaf (rewire node p r) = isleaf r) as Hflag.
  { unfold rewire. by destruct (decide _). }
  assert (child (rewire node p r) = child r) as Hname.
  { unfold rewire. by destruct (decide _). }
  destruct (decide _) as [Hdrop|Hkeep].
  - destruct (isleaf r); [|done]. destruct (Hr eq_refl). by destruct Hdrop.
  - rewrite leaf_names_cons, Hflag, Hname, IH. done.
Qed.

Section simplify_invariant.
Variable T0 : HTree.
Hypothesis leaf_no_child :
  ∀ r, r ∈ T0 → isleaf r = true → pcount T0 (child r) = 0.

Lemma simplify_inv_start : NoDup (child <$> T0) → simplify_inv T0 [] T0.
Proof.
  intros Hnd. split; [done|by left|done|done|].
  intros q Hq. by apply elem_of_nil in Hq.
Qed.

Lemma simplify_inv_skip processed T node :
  simplify_inv T0 processed T → node ∉ child <$> T →
  simplify_inv T0 (node :: processed) T.
Proof.
  intros [] Hnode. split; [done..|].
  intros q [->|Hq]%elem_of_cons; auto.
Qed.

Lemma simplify_inv_round processed T node r :
  simplify_inv T0 processed T → pcount T0 node = 1 →
  r ∈ T → child r = node →
  (∀ r', r' ∈ T → child r' = node → r' = r) →
  simplify_inv T0 (node :: processed) (simplify_round T node (parent r)).
Proof.
  intros [Hnd Hcount Htags Hleaves Hproc] Hnode Hr Hc Huniq.
  assert (Hsub := simplify_round_children T node (parent r)).
  assert (Hkeep : ∀ q, q ∉ child <$> T →
                       q ∉ child <$> simplify_round T node (parent r)).
  { intros q Hq Hin. apply Hq. by eapply elem_of_sublist. }
  assert (HnodeT : pcount T node = 1).
  { destruct (Hcount node) as [->|[_ Habs]]; [done|].
    destruct Habs. rewrite <- Hc. by apply list_elem_of_fmap_2. }
  assert (Hrows : ∀ r', r' ∈ T → child r' = node → parent r' = parent r).
  { intros r' Hr' Hc'. by rewrite (Huniq r' Hr' Hc'). }
  assert (Hleafrow : ∀ r', r' ∈ T → isleaf r' = true → child r' ≠ node).
  { intros r' Hr' Hflag Hc'.
    assert (tag r' ∈ tag <$> T0) as Htag.
    { eapply elem_of_sublist; [|done]. by apply list_elem_of_fmap_2. }
    apply list_elem_of_fmap in Htag as (r0 & Htag & Hr0).
    unfold tag in Htag. injection Htag as Hc0 Hf0.
    pose proof (leaf_no_child r0 Hr0) as Hzero.
    rewrite <- Hf0, <- Hc0, Hc', Hnode in Hzero. by specialize (Hzero Hflag). }
  split.
  - by eapply sublist_NoDup.
  - intros q. destruct (decide (q = node)) as [->|Hqn].
    { right. split; [apply simplify_round_pcount_node|apply simplify_round_removes]. }
    assert (pcount (simplify_round T node (parent r)) q = pcount T q) as Hsame.
    { destruct (decide (q = parent r)) as [->|Hqp].
      - pose proof (simplify_round_pcount_parent T node (parent r) Hqn Hrows) as Hsum.
        assert (length (filter (λ r', child r' = node) T) = 1) as Hone.
        { destruct (filter_child_unique T node Hnd) as [Hf|[z ->]]; [|done].
          assert (r ∈ filter (λ r', child r' = node) T) as Hin
            by (by apply list_elem_of_filter).
          rewrite Hf in Hin. by apply elem_of_nil in Hin. }
        lia.
      - by apply simplify_round_pcount_other. }
    rewrite Hsame. destruct (Hcount q) as [?|[? ?]]; [by left|right; auto].
  - etrans; [apply simplify_round_tags|done].
  - rewrite <- Hleaves. apply simplify_round_leaves.
    intros r' Hr' Hflag. split; [by apply Hleafrow|].
    rewrite parent_rewire. destruct (decide (parent r' = node)) as [Hpn|]; [|done].
    intros Hself. apply (Hleafrow r' Hr' Hflag).
    rewrite <- Hc. f_equal.
    apply (pcount_one_unique T node); auto.
  - intros q [->|Hq]%elem_of_cons; [apply simplify_round_removes|auto].
Qed.

(** The loop over labels with exactly one child in [T0] succeeds and
    leaves none of them among the children. *)
Lemma simplify_loop_inv skip :
  (∀ q, q ∈ skip → pcount T0 q = 1) →
  ∀ processed T, simplify_inv T0 processed T →
    ∃ T', simplify_loop T skip = Ok T' ∧
          simplify_inv T0 (reverse skip ++ processed) T'.
Proof.
  induction skip as [|node skip IH]; intros Hskip processed T Hinv.
  { exists T. by split. }
  assert (Hnode : pcount T0 node = 1) by (apply Hskip; left).
  assert (Hskip' : ∀ q, q ∈ skip → pcount T0 q = 1)
    by (intros q Hq; apply Hskip; by right).
  rewrite reverse_cons, <- app_assoc.
  change ([node] ++ processed) with (node :: processed).
  destruct (decide (node ∈ child <$> T)) as [Hin|Habs].
  - destruct (simplify_loop_cons_present T node skip (inv_unique _ _ _ Hinv) Hin)
      as (r & Hr & Hc & Huniq & ->).
    apply (IH Hskip'). by apply simplify_inv_round.
  - rewrite (simplify_loop_cons_absent T node skip Habs).
    apply (IH Hskip'). by apply simplify_inv_skip.
Qed.
End simplify_invariant.

Lemma simplify_loop_nothing (T : HTree) (skip : list string) :
  (∀ q, q ∈ skip → q ∉ child <$> T) → simplify_loop T skip = Ok T.
Proof.
  induction skip as [|node skip IH]; intros Hskip; [done|].
  rewrite simplify_loop_cons_absent by (apply Hskip; left).
  apply IH. intros q Hq. apply Hskip. by right.
Qed.

Lemma pcount_children (T : HTree) (p : string) :
  pcount T p = length (child_where_parent T p).
Proof. unfold pcount, child_where_parent. by rewrite length_fmap. Qed.

Lemma valid_leaf_no_child (T : HTree) :
  valid_tree T → ∀ r, r ∈ T → isleaf r = true → pcount T (child r) = 0.
Proof.
  intros Hvalid r Hr Hflag. rewrite pcount_children.
  apply (valid_leaf T Hvalid r Hr) in Hflag. by rewrite Hflag.
Qed.

Lemma example_tree_valid : valid_tree example_tree.
Proof.
  split.
  - compute_done.
  - each_row ltac:(compute_done).
  - each_row ltac:(intros Hflag; first [discriminate Hflag|reflexivity]).
  - apply example_tree_acyclic.
  - compute_done.
Qed.

Lemma chain_tree_valid : valid_tree chain_tree.
Proof.
  split.
  - compute_done.
  - each_row ltac:(compute_done).
  - each_row ltac:(intros Hflag; first [discriminate Hflag|reflexivity]).
  - exists chain_rank. each_row ltac:(compute_done).
  - compute_done.
Qed.

(** C6: on a well-formed tree [simplify_tree] succeeds; called again on the
    tree it returned it succeeds and returns the very same rows; and the
    leaf labels of the simplified tree are those of the tree it was given,
    in the same order. *)
Theorem simplify_tree_idempotent (T : HTree) :
  valid_tree T →
  ∃ T' skip,
    simplify_tree_rows T None = Ok (T', skip) ∧
    (∃ skip', simplify_tree_rows T' None = Ok (T', skip')) ∧
    leaf_names T' = leaf_names T.
Proof.
  intros Hvalid. unfold simplify_tree_rows. simpl.
  destruct (simplify_loop_inv T (valid_leaf_no_child T Hvalid)
              (default_skip_nodes T)
              (λ q, proj1 (elem_of_default_skip_nodes T q))
              [] T (simplify_inv_start T (valid_unique T Hvalid)))
    as (T' & Hrun & Hinv).
  exists T', (default_skip_nodes T). rewrite Hrun. split_and!; [done| |].
  - exists (default_skip_nodes T').
    rewrite simplify_loop_nothing; [done|].
    intros q Hq. apply (inv_processed T _ _ Hinv).
    apply elem_of_app. left. apply elem_of_reverse.
    apply elem_of_default_skip_nodes.
    apply elem_of_default_skip_nodes in Hq.
    destruct (inv_count T _ _ Hinv q) as [<-|[Hzero _]]; [done|lia].
  - apply (inv_leaves T _ _ Hinv).
Qed.

Lemma simplify_tree_idempotent_witness :
  ∃ T' skip,
    simplify_tree_rows chain_tree None = Ok (T', skip) ∧
    (∃ skip', simplify_tree_rows T' None = Ok (T', skip')) ∧
    leaf_names T' = leaf_names chain_tree.
Proof.
  apply (simplify_tree_idempotent chain_tree).
  split.
  - compute_done.
  - each_row ltac:(compute_done).
  - each_row ltac:(intros Hflag; first [discriminate Hflag|reflexivity]).
  - exists chain_rank. each_row ltac:(compute_done).
  - compute_done.
Defined.

Example simplify_tree_chain :
  simplify_tree_rows chain_tree None =
  Ok ([leaf_row "c" "root" 0], ["root"; "M"; "R"]).
Proof. reflexivity. Qed.

(** ** Index sorting by insertion meets the interface of [np.argsort] *)

Section insertion_argsort.
Variable before : Q → Q → bool.
Hypothesis before_true : ∀ a b, before a b = true → (a <= b)%Q.
Hypothesis before_false : ∀ a b, before a b = false → (b <= a)%Q.
Variable ys : list Q.

Lemma insert_index_perm i l : insert_index before ys i l ≡ₚ i :: l.
Proof.
  induction l as [|j l IH]; simpl; [done|].
  destruct (before _ _); [done|]. rewrite IH. apply perm_swap.
Qed.

Lemma insertion_sort_perm l : foldr (insert_index before ys) [] l ≡ₚ l.
Proof.
  induction l as [|i l IH]; simpl; [done|].
  by rewrite insert_index_perm, IH.
Qed.

Lemma insert_index_sorted i l :
  StronglySorted (λ i j, key ys i <= key ys j)%Q l →
  StronglySorted (λ i j, key ys i <= key ys j)%Q (insert_index before ys i l).
Proof.
  induction l as [|j l IH]; intros Hl; simpl.
  { repeat constructor. }
  apply StronglySorted_cons in Hl as [Hj Hl].
  destruct (before (key ys i) (key ys j)) eqn:Hb.
  - apply before_true in Hb. apply StronglySorted_cons. split.
    + constructor; [done|].
      eapply Forall_impl; [exact Hj|]. intros j' Hjj'. simpl in *.
      by eapply Qle_trans.
    + by apply StronglySorted_cons.
  - apply before_false in Hb. apply StronglySorted_cons. split; [|by apply IH].
    rewrite insert_index_perm. by constructor.
Qed.

Lemma insertion_sort_sorted l :
  StronglySorted (λ i j, key ys i <= key ys j)%Q
                 (foldr (insert_index before ys) [] l).
Proof.
  induction l as [|i l IH]; simpl; [constructor|].
  by apply insert_index_sorted.
Qed.
End insertion_argsort.

Lemma qle_bool_false (a b : Q) : Qle_bool a b = false → (b <= a)%Q.
Proof.
  intros Hb. apply Qlt_le_weak, Qnot_le_lt. intros Hle.
  apply Qle_bool_iff in Hle. congruence.
Qed.

Lemma qlt_bool_true (a b : Q) : qlt_bool a b = true → (a <= b)%Q.
Proof. unfold qlt_bool. intros Hb%negb_true_iff. by apply qle_bool_false. Qed.

Lemma qlt_bool_false (a b : Q) : qlt_bool a b = false → (b <= a)%Q.
Proof. unfold qlt_bool. intros Hb%negb_false_iff. by apply Qle_bool_iff. Qed.

(** The sort that puts an index in front of the later indices with an equal
    entry. *)
Definition argsort_by_insertion : ArgSort := {|
  argsort := insertion_argsort Qle_bool;
  argsort_perm ys := insertion_sort_perm Qle_bool ys (seq 0 (length ys));
  argsort_sorted ys :=
    insertion_sort_sorted Qle_bool Qle_bool_imp_le qle_bool_false ys
                          (seq 0 (length ys))
|}.

(** The sort that puts an index behind the later indices with an equal
    entry. *)
Definition argsort_ties_reversed : ArgSort := {|
  argsort := insertion_argsort qlt_bool;
  argsort_perm ys := insertion_sort_perm qlt_bool ys (seq 0 (length ys));
  argsort_sorted ys :=
    insertion_sort_sorted qlt_bool qlt_bool_true qlt_bool_false ys
                          (seq 0 (length ys))
|}.



Lemma insert_index_stable (ys : list Q) (i : nat) (l : list nat) :
  Forall (λ j, i < j) l →
  StronglySorted
    (λ i j, key ys i < key ys j ∨ (key ys i == key ys j ∧ (i < j)%nat))%Q l →
  StronglySorted
    (λ i j, key ys i < key ys j ∨ (key ys i == key ys j ∧ (i < j)%nat))%Q
    (insert_index Qle_bool ys i l).
Proof.
  induction l as [|j l IH]; intros Hgt Hl; simpl.
  { repeat constructor. }
  apply StronglySorted_cons in Hl as [Hj Hl].
  apply Forall_cons in Hgt as [Hij Hgt].
  destruct (Qle_bool (key ys i) (key ys j)) eqn:Hb.
  - apply Qle_bool_iff in Hb. apply StronglySorted_cons. split.
    + constructor.
      * apply Qle_lt_or_eq in Hb as [?|?]; [by left|by right].
      * rewrite Forall_forall in Hj, Hgt. apply Forall_forall. intros j' Hj'.
        specialize (Hj j' Hj'). specialize (Hgt j' Hj'). simpl in *.
        destruct Hj as [Hlt|[Heq _]].
        -- left. by eapply Qle_lt_trans.
        -- rewrite <- Heq.
           apply Qle_lt_or_eq in Hb as [?|?]; [by left|by right].
    + by apply StronglySorted_cons.
  - apply StronglySorted_cons. split; [|by apply IH].
    rewrite insert_index_perm. constructor; [|done].
    left. apply Qnot_le_lt. intros Hle. apply Qle_bool_iff in Hle. congruence.
Qed.

Lemma argsort_by_insertion_stable : stable_argsort argsort_by_insertion.
Proof.
  intros ys. simpl. unfold insertion_argsort.
  generalize 0 as a. generalize (length ys) as n.
  induction n as [|n IH]; intros a; simpl; [constructor|].
  apply insert_index_stable; [|apply IH].
  rewrite insertion_sort_perm. apply Forall_forall.
  intros j Hj%elem_of_seq. lia.
Qed.

(** ** [get_mergeseq] *)

Lemma elem_of_np_unique (l : list string) (s : string) : s ∈ np_unique l ↔ s ∈ l.
Proof. unfold np_unique. by rewrite merge_sort_Permutation, elem_of_remove_dups. Qed.




Lemma y_where_child_present (T : HTree) (r : row) :
  NoDup (child <$> T) → r ∈ T → y_where_child T (child r) = [y r].
Proof.
  intros Hnd Hr. unfold y_where_child.
  assert (r ∈ filter (λ r', child r' = child r) T) as Hin
    by (by apply list_elem_of_filter).
  destruct (filter_child_unique T (child r) Hnd) as [Hf|[z Hf]];
    rewrite Hf in Hin.
  - by apply elem_of_nil in Hin.
  - apply list_elem_of_singleton in Hin as ->. by rewrite Hf.
Qed.















Example get_mergeseq_example :
  @get_mergeseq argsort_by_insertion example_tree =
  Ok [(["a1"; "a2"], "A"); (["B"; "A"], "R")].
Proof. reflexivity. Qed.

(** For the tie between [A] and [B] the two insertion sorts, which both
    list the heights in ascending order, give different schedules. *)
Example get_mergeseq_tie_orders :
  merge_candidates tie_tree = ["A"; "B"; "R"; "root"] ∧
  (merge_height tie_tree "A" == merge_height tie_tree "B")%Q ∧
  @get_mergeseq argsort_by_insertion tie_tree =
    Ok [(["a"], "A"); (["b"], "B"); (["A"; "B"], "R")] ∧
  @get_mergeseq argsort_ties_reversed tie_tree =
    Ok [(["b"], "B"); (["a"], "A"); (["A"; "B"], "R")].
Proof. split_and!; reflexivity. Qed.

Example np_argsort_ties :
  np_argsort (replicate 16 1%Q ++ [2%Q; 2.1%Q]) =
  [0; 15; 14; 13; 12; 11; 10; 9; 8; 7; 6; 5; 4; 3; 2; 1; 16; 17].
Proof. by vm_compute. Qed.


(** ** [do_merges] after [get_mergeseq] *)

(** One record: the labels among [c_nodes_list] become [p_node]. *)
Lemma foldl_relabel (p_node : string) (c_nodes_list labels : list string) :
  foldl (relabel p_node) labels c_nodes_list =
  (λ l, if decide (l ∈ c_nodes_list) then p_node else l) <$> labels.
Proof.
  revert labels. induction c_nodes_list as [|c cs IH]; intros labels; simpl.
  { rewrite <- (list_fmap_id labels) at 1. apply list_fmap_ext.
    by intros i l _. }
  rewrite IH. unfold relabel. rewrite <- list_fmap_compose.
  apply list_fmap_ext. intros i l _. simpl.
  destruct (decide (l = c)) as [->|Hne].
  - rewrite (decide_True (P := c ∈ c :: cs)) by left. by destruct (decide _).
  - destruct (decide (l ∈ cs)) as [Hin|Hout].
    + rewrite decide_True; [done|by right].
    + rewrite decide_False; [done|]. by intros [?|?]%elem_of_cons.
Qed.

(** [n_merges] rounds from round [i] on apply the records [i], [i+1], ... in
    order, as far as there are any. *)
Lemma do_merges_loop_foldl (list_changes : list (list string * string))
    (rounds i : nat) (labels : list string) :
  do_merges_loop labels list_changes i rounds =
  foldl apply_record labels (take rounds (drop i list_changes)).
Proof.
  revert i labels. induction rounds as [|rounds IH]; intros i labels; simpl.
  { done. }
  destruct (list_changes !! i) as [[cs p]|] eqn:Hi.
  - rewrite IH. by rewrite (drop_S _ _ _ Hi).
  - rewrite drop_ge; [done|]. by apply lookup_ge_None.
Qed.








(** ** Ancestor paths in a well-formed tree *)

Lemma parent_where_child_elem (T : HTree) (n p : string) :
  p ∈ parent_where_child T n ↔ ∃ r, r ∈ T ∧ child r = n ∧ parent r = p.
Proof.
  unfold parent_where_child. rewrite list_elem_of_fmap. split.
  - intros (r & -> & [Hc Hr]%list_elem_of_filter). by exists r.
  - intros (r & Hr & Hc & <-). exists r. split; [done|].
    by apply list_elem_of_filter.
Qed.

Lemma parent_where_child_row (T : HTree) (r : row) :
  NoDup (child <$> T) → r ∈ T → parent_where_child T (child r) = [parent r].
Proof.
  intros Hnd Hr. unfold parent_where_child.
  assert (r ∈ filter (λ r', child r' = child r) T) as Hin
    by (by apply list_elem_of_filter).
  destruct (filter_child_unique T (child r) Hnd) as [Hf|[z Hf]];
    rewrite Hf in Hin.
  - by apply elem_of_nil in Hin.
  - apply list_elem_of_singleton in Hin as ->. by rewrite Hf.
Qed.

(** [get_ancestors] returns the upward path, given fuel for one round per
    node on it and one more. *)
Lemma get_ancestors_up_path (T : HTree) (n : string) (l : list string) :
  "" ∉ child <$> T → up_path T n l →
  ∀ fuel, length l < fuel → get_ancestors fuel T n None = Ok l.
Proof.
  intros Hnamed Hpath. unfold get_ancestors.
  induction Hpath as [n Hn|n p l Hn Hpath IH]; intros [|fuel] Hfuel;
    simpl in *; try lia.
  - rewrite Hn. by destruct (str_truth n).
  - assert (str_truth n = true) as ->.
    { unfold str_truth. destruct (decide (n = "")) as [->|]; [|done].
      destruct Hnamed. apply list_elem_of_fmap.
      assert (p ∈ parent_where_child T "") as Hp by (rewrite Hn; left).
      apply parent_where_child_elem in Hp as (r & Hr & Hc & _). by exists r. }
    rewrite Hn. simpl. rewrite get_ancestors_loop_acc, IH by lia. done.
Qed.

Section ranked_tree.
Variable T : HTree.
Variable rank : string → nat.
Hypothesis rank_up : ∀ r, r ∈ T → rank (child r) < rank (parent r).
Hypothesis unique : NoDup (child <$> T).

Lemma rank_parent_le (r : row) : r ∈ T → rank (parent r) ≤ top_rank T rank.
Proof.
  intros Hr. apply max_list_elem_of_le.
  apply list_elem_of_fmap. by exists r.
Qed.

(** Every node has an upward path, of at most [(top_rank T rank)] nodes. *)
Lemma up_path_exists (n : string) :
  ∃ l, up_path T n l ∧ length l ≤ top_rank T rank.
Proof.
  assert (Hgen : ∀ k n, top_rank T rank - rank n ≤ k →
                        ∃ l, up_path T n l ∧ length l ≤ top_rank T rank - rank n).
  { clear n. induction k as [|k IH]; intros n Hk.
    - exists []. split; [|simpl; lia]. constructor.
      destruct (parent_where_child T n) as [|p ps] eqn:Hn; [done|].
      assert (p ∈ parent_where_child T n) as Hp by (rewrite Hn; left).
      apply parent_where_child_elem in Hp as (r & Hr & <- & _).
      pose proof (rank_up r Hr). pose proof (rank_parent_le r Hr). lia.
    - destruct (decide (n ∈ child <$> T)) as [Hin|Habs].
      + apply list_elem_of_fmap in Hin as (r & -> & Hr).
        pose proof (rank_up r Hr). pose proof (rank_parent_le r Hr).
        destruct (IH (parent r)) as (l & Hl & Hlen); [lia|].
        exists (parent r :: l). split; [|simpl; lia].
        constructor; [by apply parent_where_child_row|done].
      + exists []. split; [|simpl; lia]. constructor.
        by apply parent_where_child_absent. }
  destruct (Hgen (top_rank T rank - rank n) n) as (l & Hl & Hlen); [done|].
  exists l. split; [done|lia].
Qed.

(** The nodes above a node have a greater rank. *)
Lemma ancestor_rank (n a : string) :
  ancestor_or_self T n a → n = a ∨ rank n < rank a.
Proof.
  induction 1 as [n|n p a Hp _ IH]; [by left|]. right.
  apply parent_where_child_elem in Hp as (r & Hr & <- & <-).
  pose proof (rank_up r Hr). destruct IH as [<-|?]; lia.
Qed.

Lemma ancestor_antisym (n a : string) :
  ancestor_or_self T n a → ancestor_or_self T a n → n = a.
Proof.
  intros [?|?]%ancestor_rank [?|?]%ancestor_rank; try done. lia.
Qed.
End ranked_tree.

(** The nodes on the path of [n], with [n], are the nodes above [n], with
    [n]. *)
Lemma up_path_ancestor (T : HTree) (n a : string) (l : list string) :
  up_path T n l → (a ∈ n :: l ↔ ancestor_or_self T n a).
Proof.
  intros Hpath. split.
  - induction Hpath as [n Hn|n p l Hn Hpath IH].
    + intros ->%list_elem_of_singleton. constructor.
    + intros [->|Ha]%elem_of_cons; [constructor|].
      apply aos_up with p; [rewrite Hn; left|by apply IH].
  - intros Haos. revert l Hpath.
    induction Haos as [n|n p a Hp Haos IH]; intros l Hpath; [left|].
    destruct Hpath as [n Hn|n p' l Hn Hpath].
    + rewrite Hn in Hp. by apply elem_of_nil in Hp.
    + rewrite Hn in Hp. apply list_elem_of_singleton in Hp as ->.
      right. by apply IH.
Qed.

(** From a node on a path the path goes on as the path of that node. *)
Lemma up_path_suffix (T : HTree) (n c : string) (l l1 l2 : list string) :
  up_path T n l → n :: l = l1 ++ c :: l2 → up_path T c l2.
Proof.
  intros Hpath. revert l1.
  induction Hpath as [n Hn|n p l Hn Hpath IH]; intros [|a l1] Heq;
    simplify_eq/=.
  - by constructor.
  - by destruct l1.
  - by constructor.
  - by eapply IH.
Qed.

Lemma first_in_Some (l k : list string) (c : string) :
  first_in l k = Some c →
  c ∈ k ∧ ∃ l1 l2, l = l1 ++ c :: l2 ∧ ∀ d, d ∈ l1 → d ∉ k.
Proof.
  induction l as [|a l IH]; [done|]. simpl.
  destruct (decide (a ∈ k)) as [Hin|Hout].
  - intros [= ->]. split; [done|]. exists [], l. split; [done|].
    by intros d ?%elem_of_nil.
  - intros (Hc & l1 & l2 & -> & Hl1)%IH. split; [done|].
    exists (a :: l1), l2. split; [done|].
    intros d [->|Hd]%elem_of_cons; auto.
Qed.

Lemma first_in_None (l k : list string) (d : string) :
  first_in l k = None → d ∈ l → d ∉ k.
Proof.
  induction l as [|a l IH]; [by intros _ ?%elem_of_nil|]. simpl.
  destruct (decide (a ∈ k)) as [Hin|Hout]; [done|].
  intros Hnone [->|Hd]%elem_of_cons; auto.
Qed.

(** The first node of the path of [i] that lies on the path of [j] is their
    lowest common ancestor. *)
Lemma first_in_lowest (T : HTree) (i j c : string) (li lj : list string) :
  up_path T i li → up_path T j lj →
  first_in (i :: li) (j :: lj) = Some c →
  lowest_common_ancestor T i j c.
Proof.
  intros Hi Hj (Hcj & l1 & l2 & Heq & Hl1)%first_in_Some.
  assert (Hci : c ∈ i :: li).
  { rewrite Heq. apply elem_of_app. right. left. }
  split_and!.
  - by apply (up_path_ancestor T i c li).
  - by apply (up_path_ancestor T j c lj).
  - intros d Hdi Hdj.
    apply (up_path_ancestor T i d li Hi) in Hdi.
    apply (up_path_ancestor T j d lj Hj) in Hdj.
    pose proof (up_path_suffix T i c li l1 l2 Hi Heq) as Hc.
    apply (up_path_ancestor T c d l2 Hc).
    rewrite Heq in Hdi. apply elem_of_app in Hdi as [Hdi|Hdi]; [|done].
    by destruct (Hl1 d).
Qed.

(** ** Cophenetic distances *)

Lemma py_pop_reverse (a : string) (l : list string) :
  py_pop (reverse (a :: l)) = Some (reverse l, a).
Proof. unfold py_pop. by rewrite reverse_involutive. Qed.

(** Popping from the end of the reversed list visits the list from its
    first entry on: the loop stops at the first entry that is in
    [ancestors_j]. *)
Lemma common_ancestor_loop_first (T : HTree) (lj li : string)
    (l ancestors_j : list string) (df : frame) :
  common_ancestor_loop (length l) T lj li (reverse l) ancestors_j df =
  match first_in l ancestors_j with
  | Some c => d ← y_of_child T c; Ok (<[(lj, li) := d]> df)
  | None => Ok df
  end.
Proof.
  induction l as [|a l IH]; [done|].
  simpl length. cbn [common_ancestor_loop]. rewrite py_pop_reverse. simpl.
  destruct (decide (a ∈ ancestors_j)); [done|apply IH].
Qed.

Lemma distance_cell_first (fuel : nat) (T : HTree) (li lj : string)
    (ai aj : list string) (df : frame) :
  get_ancestors fuel T li None = Ok ai →
  get_ancestors fuel T lj None = Ok aj →
  distance_cell fuel T li lj df =
  match first_in (li :: ai) (lj :: aj) with
  | Some c => d ← y_of_child T c; Ok (<[(lj, li) := d]> df)
  | None => Ok df
  end.
Proof.
  intros Hi Hj. unfold distance_cell. rewrite Hi, Hj. simpl.
  rewrite length_reverse. apply common_ancestor_loop_first.
Qed.

Lemma for_each_pure {A St : Type} (l : list A) (body : A → St → result St)
    (g : St → A → St) :
  (∀ a s, a ∈ l → body a s = Ok (g s a)) →
  ∀ s, for_each l body s = Ok (foldl g s l).
Proof.
  induction l as [|a l IH]; intros Hbody s; [done|]. simpl.
  rewrite Hbody by left. simpl. apply IH.
  intros a' s' Ha'. apply Hbody. by right.
Qed.

(** The entries after the inner loop for column [li] and after both
    loops. *)
Lemma column_lookup (V : string → string → Q) (li : string) (L : list string)
    (df : frame) (a b : string) :
  foldl (λ df lj, <[(lj, li) := V li lj]> df) df L !! (a, b) =
  if decide (b = li ∧ a ∈ L) then Some (V li a) else df !! (a, b).
Proof.
  revert df. induction L as [|x L IH]; intros df; cbn [foldl].
  { rewrite decide_False; [done|]. by intros [_ ?%elem_of_nil]. }
  rewrite IH. destruct (decide (b = li ∧ a ∈ L)) as [[-> Ha]|Hno].
  - rewrite decide_True; [done|]. split; [done|by right].
  - destruct (decide ((x, li) = (a, b))) as [[= -> ->]|Hne].
    + rewrite lookup_insert_eq. rewrite decide_True; [done|]. split; [done|left].
    + rewrite lookup_insert_ne by done. rewrite decide_False; [done|].
      intros [-> [->|Ha]%elem_of_cons]; [done|]. by destruct Hno.
Qed.

Lemma frame_lookup (V : string → string → Q) (L L' : list string)
    (df : frame) (a b : string) :
  foldl (λ df li, foldl (λ df lj, <[(lj, li) := V li lj]> df) df L) df L'
    !! (a, b) =
  if decide (b ∈ L' ∧ a ∈ L) then Some (V b a) else df !! (a, b).
Proof.
  revert df. induction L' as [|x L' IH]; intros df; cbn [foldl].
  { rewrite decide_False; [done|]. by intros [?%elem_of_nil _]. }
  rewrite IH. destruct (decide (b ∈ L' ∧ a ∈ L)) as [[Hb Ha]|Hno].
  - rewrite decide_True; [done|]. split; [by right|done].
  - rewrite column_lookup. destruct (decide (b = x ∧ a ∈ L)) as [[-> Ha]|Hno'].
    + rewrite decide_True; [done|]. split; [left|done].
    + rewrite decide_False; [done|].
      intros [[->|Hb]%elem_of_cons Ha]; [by destruct Hno'|by destruct Hno].
Qed.

(** In a tree with one root row, the node of that row is on the path of
    every node that has a row. *)
Lemma root_on_path (T : HTree) (r0 : row) (n : string) (l : list string) :
  NoDup (child <$> T) → root_rows T = [r0] →
  up_path T n l → n ∈ child <$> T → child r0 ∈ n :: l.
Proof.
  intros Hnd Hroot Hpath. induction Hpath as [n Hn|n p l Hn Hpath IH]; intros Hin.
  - rewrite parent_where_child_absent_iff in Hn. done.
  - apply list_elem_of_fmap in Hin as (r & -> & Hr).
    rewrite (parent_where_child_row T r Hnd Hr) in Hn. injection Hn as <-.
    destruct (decide (parent r ∈ child <$> T)) as [Hp|Hp].
    + right. by apply IH.
    + assert (r ∈ root_rows T) as Hr0 by (by apply list_elem_of_filter).
      rewrite Hroot in Hr0. apply list_elem_of_singleton in Hr0 as ->. left.
Qed.

(** In a tree with one root row, the paths of two nodes that have rows meet
    in a node that has a row. *)
Lemma paths_meet (T : HTree) (r0 : row) (i j : string) (li lj : list string) :
  NoDup (child <$> T) → root_rows T = [r0] →
  up_path T i li → up_path T j lj →
  i ∈ child <$> T → j ∈ child <$> T →
  ∃ c, first_in (i :: li) (j :: lj) = Some c ∧ c ∈ child <$> T.
Proof.
  intros Hnd Hroot Hi Hj Hini Hinj.
  pose proof (root_on_path T r0 i li Hnd Hroot Hi Hini) as Hri.
  pose proof (root_on_path T r0 j lj Hnd Hroot Hj Hinj) as Hrj.
  assert (Hr0 : child r0 ∈ child <$> T).
  { apply list_elem_of_fmap_2.
    assert (r0 ∈ root_rows T) as Hin by (rewrite Hroot; left).
    by apply list_elem_of_filter in Hin as [_ Hin]. }
  destruct (first_in (i :: li) (j :: lj)) as [c|] eqn:Hfirst.
  - exists c. split; [done|].
    apply first_in_Some in Hfirst as (_ & l1 & l2 & Heq & Hl1).
    pose proof (up_path_suffix T i c li l1 l2 Hi Heq) as Hc.
    rewrite Heq in Hri. apply elem_of_app in Hri as [Hri|Hri].
    { by destruct (Hl1 _ Hri). }
    destruct Hc as [c Hc|c p l2 Hc _].
    + apply list_elem_of_singleton in Hri as <-. done.
    + apply list_elem_of_fmap.
      assert (p ∈ parent_where_child T c) as Hp by (rewrite Hc; left).
      apply parent_where_child_elem in Hp as (r & Hr & <- & _). by exists r.
  - by destruct (first_in_None _ _ _ Hfirst Hri).
Qed.

Lemma lowest_common_ancestor_sym (T : HTree) (i j c : string) :
  lowest_common_ancestor T i j c → lowest_common_ancestor T j i c.
Proof. intros (Hi & Hj & Hlow). split_and!; auto. Qed.

Lemma elem_of_leaf_names (T : HTree) (i : string) :
  i ∈ leaf_names T ↔ ∃ r, r ∈ T ∧ child r = i ∧ isleaf r = true.
Proof.
  unfold leaf_names. rewrite list_elem_of_fmap. split.
  - intros (r & -> & [Hflag Hr]%list_elem_of_filter). by exists r.
  - intros (r & Hr & <- & Hflag). exists r. split; [done|].
    by apply list_elem_of_filter.
Qed.

(** The general part of C1. *)
Lemma cophenetic_distance_dendrogram (T : HTree) :
  dendrogram T →
  ∃ fuel0 M,
    (∀ fuel, fuel0 ≤ fuel → calculate_cophenetic_distance fuel T = Ok M) ∧
    (∀ i j, i ∈ leaf_names T → j ∈ leaf_names T →
       ∃ c rc, lowest_common_ancestor T i j c ∧ rc ∈ T ∧ child rc = c ∧
               M !! (i, j) = Some (y rc)) ∧
    (∀ i j, i ∈ leaf_names T → j ∈ leaf_names T → M !! (i, j) = M !! (j, i)) ∧
    (∀ i, i ∈ leaf_names T → ∃ v, M !! (i, i) = Some v ∧ (v == 0)%Q).
Proof.
  intros [[Hnd Hleaf Hheight [rank Hrank] Hnamed] Hroot].
  destruct (root_rows T) as [|r0 [|? ?]] eqn:Hr0; simpl in Hroot; try lia.
  clear Hroot. set (fuel0 := S (top_rank T rank)).
  set (L := leaf_names T). set (V := lca_height fuel0 T).
  assert (Hrun : ∀ n, ∃ l, up_path T n l ∧
            ∀ fuel, fuel0 ≤ fuel → get_ancestors fuel T n None = Ok l).
  { intros n. destruct (up_path_exists T rank Hrank Hnd n) as (l & Hl & Hlen).
    exists l. split; [done|]. intros fuel Hfuel.
    apply get_ancestors_up_path; [done..|]. unfold fuel0 in Hfuel. lia. }
  assert (Hrow : ∀ i, i ∈ L → i ∈ child <$> T).
  { intros i (r & Hr & <- & _)%elem_of_leaf_names. by apply list_elem_of_fmap_2. }
  assert (Hmeet : ∀ i j, i ∈ L → j ∈ L →
            ∃ c rc, lowest_common_ancestor T i j c ∧ rc ∈ T ∧ child rc = c ∧
                    V i j = y rc ∧
                    ∀ fuel df, fuel0 ≤ fuel →
                      distance_cell fuel T i j df = Ok (<[(j, i) := V i j]> df)).
  { intros i j Hi Hj.
    destruct (Hrun i) as (li & Hli & Hruni). destruct (Hrun j) as (lj & Hlj & Hrunj).
    destruct (paths_meet T r0 i j li lj Hnd Hr0 Hli Hlj (Hrow i Hi) (Hrow j Hj))
      as (c & Hfirst & Hc).
    apply list_elem_of_fmap in Hc as (rc & -> & Hrc).
    assert (HV : V i j = y rc).
    { unfold V, lca_height, anc_path.
      rewrite (Hruni fuel0), (Hrunj fuel0), Hfirst by done.
      by rewrite (y_where_child_present T rc Hnd Hrc). }
    exists (child rc), rc. split_and!; [|done..|].
    - by apply (first_in_lowest T i j (child rc) li lj).
    - intros fuel df Hfuel.
      rewrite (distance_cell_first fuel T i j li lj df (Hruni fuel Hfuel)
                 (Hrunj fuel Hfuel)), Hfirst.
      unfold y_of_child. rewrite (y_where_child_present T rc Hnd Hrc).
      simpl. by rewrite HV. }
  set (M := foldl (λ df li, foldl (λ df lj, <[(lj, li) := V li lj]> df) df L)
                  (zeros L) L).
  assert (HM : ∀ a b, a ∈ L → b ∈ L → M !! (a, b) = Some (V b a)).
  { intros a b Ha Hb. unfold M. rewrite frame_lookup. by rewrite decide_True. }
  exists fuel0, M. split_and!.
  - intros fuel Hfuel. unfold calculate_cophenetic_distance. fold L.
    apply (for_each_pure L _
             (λ df li, foldl (λ df lj, <[(lj, li) := V li lj]> df) df L)).
    intros li df Hli.
    apply (for_each_pure L _ (λ df lj, <[(lj, li) := V li lj]> df)).
    intros lj df' Hlj.
    destruct (Hmeet li lj Hli Hlj) as (_ & _ & _ & _ & _ & _ & Hcell). by apply Hcell.
  - intros i j Hi Hj. rewrite (HM i j Hi Hj).
    destruct (Hmeet j i Hj Hi) as (c & rc & Hlca & Hrc & Hc & HV & _).
    exists c, rc. split_and!; [by apply lowest_common_ancestor_sym|done..|by rewrite HV].
  - intros i j Hi Hj. rewrite (HM i j Hi Hj), (HM j i Hj Hi). f_equal.
    destruct (Hmeet j i Hj Hi) as (c1 & r1 & (H1j & H1i & Hlow1) & Hr1 & Hc1 & HV1 & _).
    destruct (Hmeet i j Hi Hj) as (c2 & r2 & (H2i & H2j & Hlow2) & Hr2 & Hc2 & HV2 & _).
    assert (c1 = c2) as Heq.
    { apply (ancestor_antisym T rank Hrank); [by apply Hlow1|by apply Hlow2]. }
    assert (r1 = r2) as ->.
    { destruct (filter_child_unique T (child r1) Hnd) as [Hf|[z Hf]].
      - assert (r1 ∈ filter (λ r, child r = child r1) T) as Hin
          by (by apply list_elem_of_filter).
        rewrite Hf in Hin. by apply elem_of_nil in Hin.
      - assert (r1 ∈ filter (λ r, child r = child r1) T) as Hin1
          by (by apply list_elem_of_filter).
        assert (r2 ∈ filter (λ r, child r = child r1) T) as Hin2
          by (apply list_elem_of_filter; split; [congruence|done]).
        rewrite Hf in Hin1, Hin2.
        apply list_elem_of_singleton in Hin1, Hin2. congruence. }
    by rewrite HV1, HV2.
  - intros i Hi. rewrite (HM i i Hi Hi). exists (V i i). split; [done|].
    pose proof Hi as (ri & Hri & <- & Hflag)%elem_of_leaf_names.
    destruct (Hrun (child ri)) as (l & Hl & Hruni).
    assert (V (child ri) (child ri) = y ri) as ->; [|by apply Hheight].
    unfold V, lca_height, anc_path. rewrite (Hruni fuel0) by done.
    simpl. rewrite decide_True by left.
    by rewrite (y_where_child_present T ri Hnd Hri).
Qed.



(** * Further properties of the module *)

(** ** Descendants and ancestors *)

Lemma ancestor_or_self_trans (T : HTree) (n a b : string) :
  ancestor_or_self T n a → ancestor_or_self T a b → ancestor_or_self T n b.
Proof.
  induction 1 as [n|n p a Hp Ha IH]; [done|].
  intros Hb. eapply aos_up; [exact Hp|by apply IH].
Qed.

Lemma child_parent_where (T : HTree) (c p : string) :
  c ∈ child_where_parent T p ↔ p ∈ parent_where_child T c.
Proof. rewrite child_where_parent_elem, parent_where_child_elem. naive_solver. Qed.

Lemma ancestor_or_self_step (T : HTree) (d c p : string) :
  ancestor_or_self T d c → c ∈ child_where_parent T p → ancestor_or_self T d p.
Proof.
  intros Hd Hc. eapply ancestor_or_self_trans; [exact Hd|].
  eapply aos_up; [by apply child_parent_where|constructor].
Qed.

(** The last step of a path upwards. *)
Lemma ancestor_or_self_top (T : HTree) (d c : string) :
  ancestor_or_self T d c →
  d = c ∨ ∃ c', c' ∈ child_where_parent T c ∧ ancestor_or_self T d c'.
Proof.
  induction 1 as [n|n p a Hp Ha IH]; [by left|]. right.
  destruct IH as [->|(c' & Hc' & Hd)].
  - exists n. split; [by apply child_parent_where|constructor].
  - exists c'. split; [done|]. by eapply aos_up.
Qed.

(** What the work-list loop collects: the output so far, and everything
    below a label of the work list. *)
Lemma get_descendants_loop_elem (T : HTree) (fuel : nat) :
  ∀ current_node descendants l,
    get_descendants_loop fuel T current_node descendants = Ok l →
    ∀ d, d ∈ l ↔
      d ∈ descendants ∨
      ∃ q c, q ∈ current_node ∧ c ∈ child_where_parent T q ∧
             ancestor_or_self T d c.
Proof.
  induction fuel as [|fuel IH]; intros cur acc l Hl d; [done|].
  simpl in Hl. destruct cur as [|p rest].
  - injection Hl as <-. split; [by left|].
    intros [Hd|(q & c & Hq & _)]; [done|]. by apply elem_of_nil in Hq.
  - rewrite (IH _ _ _ Hl d). rewrite elem_of_app. split.
    + intros [[Hd|Hd]|(q & c & Hq & Hc & Hdc)].
      * by left.
      * right. exists p, d. split_and!; [left|done|constructor].
      * apply elem_of_app in Hq as [Hq|Hq].
        -- right. exists q, c. split_and!; [by right|done..].
        -- right. exists p, q. split_and!; [left|done|].
           by eapply ancestor_or_self_step.
    + intros [Hd|(q & c & Hq & Hc & Hdc)]; [by left; left|].
      apply elem_of_cons in Hq as [->|Hq].
      * apply ancestor_or_self_top in Hdc as [->|(c' & Hc' & Hd)].
        -- by left; right.
        -- right. exists c, c'. split_and!; [|done..].
           apply elem_of_app. by right.
      * right. exists q, c. split_and!; [|done..]. apply elem_of_app. by left.
Qed.

(** The labels that [get_descendants] returns are those strictly below
    [node]. *)
Lemma get_descendants_elem (T : HTree) (fuel : nat) (node : string)
    (l : list string) :
  get_descendants fuel T node false = Ok l →
  ∀ d, d ∈ l ↔
    ∃ c, c ∈ child_where_parent T node ∧ ancestor_or_self T d c.
Proof.
  unfold get_descendants. intros Hl d.
  destruct (get_descendants_loop fuel T (child_where_parent T node)
              (child_where_parent T node)) as [l'| |] eqn:Hloop;
    simpl in Hl; [|done..].
  injection Hl as <-.
  rewrite (get_descendants_loop_elem _ _ _ _ _ Hloop d). split.
  - intros [Hd|(q & c & Hq & Hc & Hdc)].
    + exists d. split; [done|constructor].
    + exists q. split; [done|]. by eapply ancestor_or_self_step.
  - intros (c & Hc & Hdc).
    apply ancestor_or_self_top in Hdc as [->|(c' & Hc' & Hd)]; [by left|].
    right. by exists c, c'.
Qed.

(** One amount of fuel is enough for every label of an acyclic tree. *)
Lemma get_descendants_total (T : HTree) :
  acyclic T →
  ∃ fuel0, ∀ node leafonly, ∃ l, ∀ fuel, fuel0 ≤ fuel →
    get_descendants fuel T node leafonly = Ok l.
Proof.
  intros [rank Hrank].
  exists (S (S (length T) ^ top_rank T rank)). intros node leafonly.
  destruct (get_descendants_loop_terminates T rank Hrank
              (S (length T) ^ top_rank T rank)
              (child_where_parent T node) (child_where_parent T node))
    as [l Hl].
  { destruct (child_where_parent T node) as [|c cs] eqn:Hc; [simpl; lia|].
    assert (Hin : c ∈ child_where_parent T node) by (rewrite Hc; left).
    apply child_where_parent_elem in Hin as (r & Hr & _ & Hp).
    rewrite <- Hc.
    pose proof (weight_children_lt T rank Hrank node) as Hlt.
    pose proof (rank_parent_le T rank r Hr) as Hle. rewrite Hp in Hle.
    unfold weight in Hlt.
    assert (S (length T) ^ rank node ≤ S (length T) ^ top_rank T rank)
      by (apply Nat.pow_le_mono_r; lia).
    unfold weight. lia. }
  exists (if leafonly
          then elements (list_to_set l ∩ list_to_set (leaf_names T) : gset string)
          else l).
  intros fuel Hfuel. unfold get_descendants. rewrite Hl by lia.
  by destruct leafonly.
Qed.

Lemma up_path_below (T : HTree) (d node : string) (l : list string) :
  up_path T d l → node ∈ l →
  ∃ c, c ∈ child_where_parent T node ∧ ancestor_or_self T d c.
Proof.
  induction 1 as [n Hn|n p l Hp Hl IH]; intros Hin.
  - by apply elem_of_nil in Hin.
  - assert (Hpn : p ∈ parent_where_child T n) by (rewrite Hp; left).
    apply elem_of_cons in Hin as [->|Hin].
    + exists n. split; [by apply child_parent_where|constructor].
    + destruct (IH Hin) as (c & Hc & Hpc). exists c. split; [done|].
      by eapply aos_up.
Qed.

(** X1: in a well-formed tree [get_descendants] and [get_ancestors] are
    converse to each other: [d] is among the descendants of [node] exactly
    when [node] is among the ancestors of [d]; both calls return. *)
Theorem get_descendants_ancestors_dual (T : HTree) (node d : string) :
  valid_tree T →
  ∃ fuel0 below above,
    (∀ fuel, fuel0 ≤ fuel →
       get_descendants fuel T node false = Ok below ∧
       get_ancestors fuel T d None = Ok above) ∧
    (d ∈ below ↔ node ∈ above).
Proof.
  intros [Hunique _ _ Hacyclic Hnamed].
  destruct (get_descendants_total T Hacyclic) as [fuel1 Hdesc].
  destruct (Hdesc node false) as [below Hbelow].
  destruct Hacyclic as [rank Hrank].
  destruct (up_path_exists T rank Hrank Hunique d) as (above & Hpath & Hlen).
  exists (fuel1 `max` S (length above)), below, above. split.
  - intros fuel Hfuel. split; [apply Hbelow; lia|].
    apply get_ancestors_up_path; [done..|lia].
  - rewrite (get_descendants_elem T fuel1 node below (Hbelow fuel1 (le_n _)) d).
    split.
    + intros (c & Hc & Hdc).
      assert (Hdn : ancestor_or_self T d node)
        by (by eapply ancestor_or_self_step).
      apply (up_path_ancestor T d node above Hpath) in Hdn.
      apply elem_of_cons in Hdn as [->|Hdn]; [|done].
      apply child_where_parent_elem in Hc as (r & Hr & <- & Hp).
      apply (ancestor_rank T rank Hrank) in Hdc.
      specialize (Hrank r Hr). rewrite Hp in Hrank.
      destruct Hdc as [Hdc|Hdc]; [rewrite Hdc in Hrank|]; lia.
    + intros Hin. by eapply up_path_below.
Qed.

Lemma get_descendants_ancestors_dual_witness :
  ∃ fuel0 below above,
    (∀ fuel, fuel0 ≤ fuel →
       get_descendants fuel example_tree "R" false = Ok below ∧
       get_ancestors fuel example_tree "a1" None = Ok above) ∧
    ("a1" ∈ below ↔ "R" ∈ above).
Proof.
  apply (get_descendants_ancestors_dual example_tree "R" "a1").
  concrete_valid_tree example_rank.
Defined.

(** ** The dict of all descendants *)

Lemma foldl_insert_lookup {A : Type} (f : string → A) (keys : list string)
    (m : gmap string A) (k : string) :
  foldl (λ s key, <[key := f key]> s) m keys !! k =
  if decide (k ∈ keys) then Some (f k) else m !! k.
Proof.
  revert m. induction keys as [|a keys IH]; intros m; [done|].
  simpl. rewrite IH. destruct (decide (k ∈ keys)) as [Hk|Hk].
  - rewrite decide_True; [done|by right].
  - destruct (decide (k = a)) as [->|Hne].
    + rewrite lookup_insert_eq. rewrite decide_True; [done|left].
    + rewrite lookup_insert_ne by done. rewrite decide_False; [done|].
      intros [?|?]%elem_of_cons; done.
Qed.

(** X2: on an acyclic tree [get_all_descendants] returns a dict whose keys
    are the labels of the tree, those that occur as child and those that
    occur as parent; the entry of a key is what [get_descendants] returns
    for it, and a label without children has the empty list. *)
Theorem get_all_descendants_keys (T : HTree) (leafonly : bool) :
  acyclic T →
  ∃ fuel0 D,
    (∀ fuel, fuel0 ≤ fuel → get_all_descendants fuel T leafonly = Ok D) ∧
    (∀ k, is_Some (D !! k) ↔ k ∈ (child <$> T) ++ (parent <$> T)) ∧
    (∀ k l, D !! k = Some l →
       ∀ fuel, fuel0 ≤ fuel → get_descendants fuel T k leafonly = Ok l) ∧
    (∀ k, k ∈ child <$> T → child_where_parent T k = [] → D !! k = Some []).
Proof.
  intros Hacyclic. destruct (get_descendants_total T Hacyclic) as [fuel0 Hdesc].
  set (desc := λ k, match get_descendants fuel0 T k leafonly with
                    | Ok l => l
                    | _ => []
                    end).
  assert (Hcall : ∀ k fuel, fuel0 ≤ fuel →
            get_descendants fuel T k leafonly = Ok (desc k)).
  { intros k fuel Hfuel. destruct (Hdesc k leafonly) as [l Hl].
    unfold desc. rewrite (Hl fuel0 (le_n _)). by apply Hl. }
  set (keys := np_unique ((child <$> T) ++ (parent <$> T))).
  exists fuel0, (foldl (λ s key, <[key := desc key]> s) ∅ keys).
  split_and!.
  - intros fuel Hfuel. unfold get_all_descendants.
    apply (for_each_pure keys _ (λ s key, <[key := desc key]> s)).
    intros key s _. by rewrite (Hcall key fuel Hfuel).
  - intros k. rewrite foldl_insert_lookup. unfold keys.
    destruct (decide _) as [Hk|Hk].
    + rewrite elem_of_np_unique in Hk. split; [by intros _|intros _; by eexists].
    + rewrite lookup_empty. split; [by intros [? ?]|].
      intros Hin. destruct Hk. by apply elem_of_np_unique.
  - intros k l. rewrite foldl_insert_lookup.
    destruct (decide _) as [Hk|Hk]; [|by rewrite lookup_empty].
    intros [= <-]. apply Hcall.
  - intros k Hk Hnone. rewrite foldl_insert_lookup, decide_True.
    + f_equal. unfold desc.
      destruct fuel0 as [|fuel0].
      * destruct (Hdesc k leafonly) as [l Hl]. by specialize (Hl 0 (le_n _)).
      * unfold get_descendants. rewrite Hnone. simpl.
        destruct leafonly; [|done].
        apply elements_empty_iff. set_solver.
    + apply elem_of_np_unique, elem_of_app. by left.
Qed.

Lemma get_all_descendants_keys_witness :
  ∃ fuel0 D,
    (∀ fuel, fuel0 ≤ fuel → get_all_descendants fuel example_tree true = Ok D) ∧
    (∀ k, is_Some (D !! k) ↔
          k ∈ (child <$> example_tree) ++ (parent <$> example_tree)) ∧
    (∀ k l, D !! k = Some l →
       ∀ fuel, fuel0 ≤ fuel → get_descendants fuel example_tree k true = Ok l) ∧
    (∀ k, k ∈ child <$> example_tree →
          child_where_parent example_tree k = [] → D !! k = Some []).
Proof.
  apply (get_all_descendants_keys example_tree true).
  exists example_rank. each_row ltac:(compute_done).
Defined.

(** ** Subtrees *)

Lemma filter_ext_in {A : Type} (P Q : A → Prop) `{!∀ a, Decision (P a)}
    `{!∀ a, Decision (Q a)} (l : list A) :
  (∀ a, a ∈ l → P a ↔ Q a) → filter P l = filter Q l.
Proof.
  induction l as [|a l IH]; intros Hext; [done|].
  rewrite !filter_cons. rewrite IH by (intros b Hb; apply Hext; by right).
  pose proof (Hext a (list_elem_of_here _ _)) as Ha.
  destruct (decide (P a)), (decide (Q a)); tauto || done.
Qed.

Lemma filter_all {A : Type} (P : A → Prop) `{!∀ a, Decision (P a)}
    (l : list A) :
  (∀ a, a ∈ l → P a) → filter P l = l.
Proof.
  induction l as [|a l IH]; intros Hall; [done|].
  rewrite filter_cons, decide_True by (apply Hall; left).
  f_equal. apply IH. intros b Hb. apply Hall. by right.
Qed.

(** The labels that [get_subtree] keeps: [node] and what is below it. *)
Lemma subtree_node_list_elem (T : HTree) (fuel : nat) (node : string)
    (below : list string) :
  get_descendants fuel T node false = Ok below →
  ∀ c, c ∈ below ++ [node] ↔ ancestor_or_self T c node.
Proof.
  intros Hbelow c.
  rewrite elem_of_app, (get_descendants_elem T fuel node below Hbelow c).
  split.
  - intros [(c' & Hc' & Hc)|Hc].
    + by eapply ancestor_or_self_step.
    + apply list_elem_of_singleton in Hc as ->. constructor.
  - intros Hc. apply ancestor_or_self_top in Hc as [->|Hc]; [|by left].
    right. by apply list_elem_of_singleton.
Qed.

(** What [get_subtree] does with the descendants of [node]. *)
Lemma get_subtree_cases (T : HTree) (fuel : nat) (node : string)
    (below : list string) :
  get_descendants fuel T node false = Ok below →
  (child_where_parent T node = [] → get_subtree fuel T node = UnboundLocalError) ∧
  (child_where_parent T node ≠ [] →
     get_subtree fuel T node =
     Subtree (filter (λ r, child r ∈ below ++ [node]) T)).
Proof.
  intros Hbelow. unfold get_subtree. rewrite Hbelow. split.
  - intros Hc. destruct below as [|d below]; [done|].
    assert (Hin : d ∈ d :: below) by left.
    apply (get_descendants_elem T fuel node _ Hbelow) in Hin as (c & Hin & _).
    rewrite Hc in Hin. by apply elem_of_nil in Hin.
  - intros Hne. rewrite decide_True; [done|].
    destruct (child_where_parent T node) as [|c cs] eqn:Hc; [done|].
    assert (Hin : c ∈ below).
    { apply (get_descendants_elem T fuel node below Hbelow).
      exists c. split; [rewrite Hc; left|constructor]. }
    rewrite length_app. simpl. destruct below; [by apply elem_of_nil in Hin|].
    simpl. lia.
Qed.

(** X3: on an acyclic tree [get_subtree] fails with [UnboundLocalError]
    exactly for the labels that are the parent of no row, so for every leaf
    and for every label that is not in the tree; for any other label it
    returns the rows of the label and of everything below it. *)
Theorem get_subtree_unbound (T : HTree) (node : string) :
  acyclic T →
  ∃ fuel0, ∀ fuel, fuel0 ≤ fuel →
    (child_where_parent T node = [] ↔
       get_subtree fuel T node = UnboundLocalError) ∧
    (child_where_parent T node ≠ [] →
       ∃ S, get_subtree fuel T node = Subtree S ∧
            ∀ r, r ∈ S ↔ r ∈ T ∧ ancestor_or_self T (child r) node).
Proof.
  intros Hacyclic. destruct (get_descendants_total T Hacyclic) as [fuel0 Hdesc].
  destruct (Hdesc node false) as [below Hbelow].
  exists fuel0. intros fuel Hfuel. specialize (Hbelow fuel Hfuel).
  destruct (get_subtree_cases T fuel node below Hbelow) as [Hnone Hsome].
  split.
  - split; [done|]. intros Hu.
    destruct (decide (child_where_parent T node = [])) as [|Hne]; [done|].
    by rewrite (Hsome Hne) in Hu.
  - intros Hne. eexists. split; [by apply Hsome|]. intros r.
    rewrite list_elem_of_filter.
    rewrite (subtree_node_list_elem T fuel node below Hbelow). tauto.
Qed.

Lemma get_subtree_unbound_witness :
  ∃ fuel0, ∀ fuel, fuel0 ≤ fuel →
    (child_where_parent example_tree "a1" = [] ↔
       get_subtree fuel example_tree "a1" = UnboundLocalError) ∧
    (child_where_parent example_tree "a1" ≠ [] →
       ∃ S, get_subtree fuel example_tree "a1" = Subtree S ∧
            ∀ r, r ∈ S ↔
                 r ∈ example_tree ∧ ancestor_or_self example_tree (child r) "a1").
Proof.
  apply (get_subtree_unbound example_tree "a1").
  exists example_rank. each_row ltac:(compute_done).
Defined.

Example get_subtree_leaf :
  get_subtree 3 example_tree "a1" = UnboundLocalError.
Proof. reflexivity. Qed.

Example get_subtree_example :
  get_subtree 5 example_tree "A" =
  Subtree [ leaf_row "a1" "A" 0; leaf_row "a2" "A" 1; node_row "A" "R" (1#2) 1 ].
Proof. by vm_compute. Qed.

Lemma ancestor_has_row (T : HTree) (c node : string) :
  ancestor_or_self T c node → node ∈ child <$> T → c ∈ child <$> T.
Proof.
  destruct 1 as [n|n p a Hp Ha]; [done|]. intros _.
  apply parent_where_child_elem in Hp as (r & Hr & <- & _).
  by apply list_elem_of_fmap_2.
Qed.

(** The rows at or below a node that has a row form a dendrogram. *)
Lemma subtree_rows_dendrogram (T : HTree) (P : row → Prop)
    `{!∀ r, Decision (P r)} (node : string) (r0 : row) :
  valid_tree T →
  (∀ r, r ∈ T → P r ↔ ancestor_or_self T (child r) node) →
  r0 ∈ T → child r0 = node →
  dendrogram (filter P T) ∧
  root_rows (filter P T) = [r0] ∧
  (∀ c, ancestor_or_self T c node →
        child_where_parent (filter P T) c = child_where_parent T c).
Proof.
  intros [Hunique Hleaf Hheight Hacyclic Hnamed] HP Hr0T Hr0.
  set (S := filter P T).
  assert (HS : ∀ r, r ∈ S ↔ r ∈ T ∧ ancestor_or_self T (child r) node).
  { intros r. unfold S. rewrite list_elem_of_filter. split.
    - intros [Hp Hr]. split; [done|]. by apply HP.
    - intros [Hr Hp]. split; [|done]. by apply HP. }
  assert (HuniqueS : NoDup (child <$> S)).
  { apply (sublist_NoDup _ (child <$> T)); [exact Hunique|].
    apply fmap_sublist, sublist_filter. }
  assert (Hchildren : ∀ c, ancestor_or_self T c node →
            child_where_parent S c = child_where_parent T c).
  { intros c Hc. unfold child_where_parent, S. f_equal.
    rewrite list_filter_filter.
    apply filter_ext_in. intros r Hr. split; [tauto|]. intros Hp.
    split; [done|]. apply (HP r Hr).
    eapply ancestor_or_self_trans; [|exact Hc].
    eapply aos_up; [|constructor].
    apply parent_where_child_elem. by exists r. }
  assert (Hr0S : r0 ∈ S) by (apply HS; split; [done|rewrite Hr0; constructor]).
  assert (Hroot : root_rows S = [r0]).
  { unfold root_rows.
    rewrite (filter_ext_in _ (λ r, child r = node) S).
    - destruct (filter_child_unique S node HuniqueS) as [Hnil|[r Hr]].
      + assert (Hin : r0 ∈ filter (λ r, child r = node) S)
          by (by apply list_elem_of_filter).
        rewrite Hnil in Hin. by apply elem_of_nil in Hin.
      + assert (Hin : r0 ∈ filter (λ r, child r = node) S)
          by (by apply list_elem_of_filter).
        rewrite Hr in Hin. apply list_elem_of_singleton in Hin. by rewrite Hin.
    - intros r HrS. pose proof HrS as [HrT Haos]%HS. split.
      + intros Hnot. inversion Haos as [n|n p a Hp Hpa]; [done|]. subst.
        destruct Hnot.
        apply parent_where_child_elem in Hp as (r' & Hr' & Hc' & <-).
        rewrite (row_unique T r' r Hunique Hr' HrT Hc') in Hpa.
        assert (Hprow : parent r ∈ child <$> T).
        { apply (ancestor_has_row T _ (child r0) Hpa).
          by apply list_elem_of_fmap_2. }
        apply list_elem_of_fmap in Hprow as (rp & Hrp & HrpT).
        apply list_elem_of_fmap. exists rp. split; [done|].
        apply HS. split; [done|]. by rewrite <- Hrp.
      + intros Hc Hin.
        assert (r = r0) as -> by (by apply (row_unique T); [| | |rewrite Hc]).
        apply list_elem_of_fmap in Hin as (rp & Hrp & [HrpT Hpaos]%HS).
        destruct Hacyclic as [rank Hrank].
        rewrite <- Hrp in Hpaos.
        apply (ancestor_rank T rank Hrank) in Hpaos.
        specialize (Hrank r0 Hr0T). rewrite Hc in Hrank.
        destruct Hpaos as [Heq|Hlt]; [|lia].
        rewrite Heq in Hrank. lia. }
  split_and!; [|done|done].
  split; [split|by rewrite Hroot].
  - done.
  - intros r [HrT Haos]%HS. rewrite Hchildren by done. by apply Hleaf.
  - intros r [HrT _]%HS. by apply Hheight.
  - destruct Hacyclic as [rank Hrank]. exists rank.
    intros r [HrT _]%HS. by apply Hrank.
  - intros Hin. apply Hnamed.
    apply list_elem_of_fmap in Hin as (r & Hr & [HrT _]%HS).
    apply list_elem_of_fmap. by exists r.
Qed.

(** X4: for a node of a well-formed tree that has a row and at least one
    child, [get_subtree] returns a dendrogram: a sublist of the rows that is
    again well-formed, in which the row of the node is the only root row and
    every label at or below the node has the children it has in the tree. *)
Theorem get_subtree_dendrogram (T : HTree) (node : string) :
  valid_tree T → node ∈ child <$> T → child_where_parent T node ≠ [] →
  ∃ fuel0 S r0,
    (∀ fuel, fuel0 ≤ fuel → get_subtree fuel T node = Subtree S) ∧
    S `sublist_of` T ∧
    dendrogram S ∧
    root_rows S = [r0] ∧ child r0 = node ∧
    (∀ c, ancestor_or_self T c node →
          child_where_parent S c = child_where_parent T c).
Proof.
  intros Hvalid Hnode Hne.
  destruct (get_descendants_total T (valid_acyclic T Hvalid)) as [fuel0 Hdesc].
  destruct (Hdesc node false) as [below Hbelow].
  apply list_elem_of_fmap in Hnode as (r0 & Hr0 & Hr0T).
  destruct (subtree_rows_dendrogram T (λ r, child r ∈ below ++ [node]) node r0
              Hvalid) as (Hdend & Hroot & Hchildren); [|done..|].
  { intros r _.
    apply (subtree_node_list_elem T fuel0 node below (Hbelow fuel0 (le_n _))). }
  exists fuel0, (filter (λ r, child r ∈ below ++ [node]) T), r0.
  split_and!; [|apply sublist_filter|done..].
  intros fuel Hfuel.
  by apply (get_subtree_cases T fuel node below (Hbelow fuel Hfuel)).
Qed.

Lemma get_subtree_dendrogram_witness :
  ∃ fuel0 S r0,
    (∀ fuel, fuel0 ≤ fuel → get_subtree fuel example_tree "A" = Subtree S) ∧
    S `sublist_of` example_tree ∧
    dendrogram S ∧
    root_rows S = [r0] ∧ child r0 = "A" ∧
    (∀ c, ancestor_or_self example_tree c "A" →
          child_where_parent S c = child_where_parent example_tree c).
Proof.
  apply (get_subtree_dendrogram example_tree "A").
  - concrete_valid_tree example_rank.
  - compute_done.
  - discriminate.
Defined.

(** X5: the subtree below the root sentinel of a dendrogram is the whole
    tree: [get_subtree] returns all rows, in their order. *)
Theorem get_subtree_of_root (T : HTree) (r0 : row) :
  dendrogram T → r0 ∈ root_rows T →
  ∃ fuel0, ∀ fuel, fuel0 ≤ fuel → get_subtree fuel T (parent r0) = Subtree T.
Proof.
  intros [[Hunique Hleaf Hheight Hacyclic Hnamed] Hone] Hr0.
  assert (Hroot : root_rows T = [r0]).
  { destruct (root_rows T) as [|r1 [|r2 rest]]; [done| |done].
    by apply list_elem_of_singleton in Hr0 as ->. }
  apply list_elem_of_filter in Hr0 as [_ Hr0].
  assert (Hchild : child r0 ∈ child_where_parent T (parent r0))
    by (apply child_where_parent_elem; by exists r0).
  destruct (get_descendants_total T Hacyclic) as [fuel0 Hdesc].
  destruct (Hdesc (parent r0) false) as [below Hbelow].
  exists fuel0. intros fuel Hfuel. specialize (Hbelow fuel Hfuel).
  rewrite (proj2 (get_subtree_cases T fuel (parent r0) below Hbelow)).
  2: { intros Hnil. rewrite Hnil in Hchild. by apply elem_of_nil in Hchild. }
  f_equal. apply filter_all. intros r Hr.
  apply (subtree_node_list_elem T fuel (parent r0) below Hbelow).
  destruct Hacyclic as [rank Hrank].
  destruct (up_path_exists T rank Hrank Hunique (child r)) as (path & Hpath & _).
  eapply ancestor_or_self_step; [|exact Hchild].
  apply (up_path_ancestor T (child r) (child r0) path Hpath).
  apply (root_on_path T r0 (child r) path Hunique Hroot Hpath).
  by apply list_elem_of_fmap_2.
Qed.

Lemma get_subtree_of_root_witness :
  ∃ fuel0, ∀ fuel, fuel0 ≤ fuel →
    get_subtree fuel example_tree "root" = Subtree example_tree.
Proof.
  apply (get_subtree_of_root example_tree (node_row "R" "root" (5#4) 2)).
  - split; [concrete_valid_tree example_rank|reflexivity].
  - assert (root_rows example_tree = [node_row "R" "root" (5#4) 2]) as ->
      by reflexivity.
    left.
Defined.

(** ** More on [do_merges] *)

(** A run of records acts on every entry by itself. *)
Lemma apply_records_pointwise (recs : list (list string * string)) :
  ∃ f : string → string,
    (∀ a, foldl apply_record a recs = f <$> a) ∧
    (∀ l, (∀ cs p, (cs, p) ∈ recs → l ∉ cs) → f l = l) ∧
    (∀ R : relation string, Reflexive R → Transitive R →
       (∀ cs p c, (cs, p) ∈ recs → c ∈ cs → R c p) → ∀ l, R l (f l)).
Proof.
  induction recs as [|[cs p] recs (f & Hf & Hkeep & Hrel)].
  { exists id. split_and!.
    - intros a. simpl. by rewrite list_fmap_id.
    - by intros l _.
    - intros R HR _ _ l. apply HR. }
  exists (λ l, f (if decide (l ∈ cs) then p else l)). split_and!.
  - intros a. simpl. unfold apply_record at 2. simpl.
    rewrite foldl_relabel, Hf, <- list_fmap_compose. done.
  - intros l Hl. rewrite decide_False by (apply (Hl cs p); left).
    apply Hkeep. intros cs' p' Hin. apply (Hl cs' p'). by right.
  - intros R HR HT Hrecs l.
    assert (Hstep : R l (if decide (l ∈ cs) then p else l)).
    { destruct (decide (l ∈ cs)) as [Hl|_]; [|apply HR].
      apply (Hrecs cs p); [left|done]. }
    etrans; [exact Hstep|]. apply Hrel; [done..|].
    intros cs' p' c Hin. apply (Hrecs cs' p'). by right.
Qed.

(** X6: [do_merges] on an array returns the array it was given, relabelled
    in place: it has the size of the input, entries that were equal are
    still equal, and an entry that no record of the first [n_merges] lists
    as a child is unchanged. *)
Theorem do_merges_pointwise (a : list string)
    (list_changes : list (list string * string)) (n_merges : nat) :
  ∃ a',
    do_merges (NdArray a) list_changes n_merges = (NdArray a', Ok (NdArray a')) ∧
    length a' = length a ∧
    (∀ i j, a !! i = a !! j → a' !! i = a' !! j) ∧
    (∀ i l, a !! i = Some l →
       (∀ cs p, (cs, p) ∈ take n_merges list_changes → l ∉ cs) →
       a' !! i = Some l).
Proof.
  destruct (apply_records_pointwise (take n_merges list_changes))
    as (f & Hf & Hkeep & _).
  exists (f <$> a). split_and!.
  - simpl. by rewrite do_merges_loop_foldl, drop_0, Hf.
  - by rewrite length_fmap.
  - intros i j Hij. by rewrite !list_lookup_fmap, Hij.
  - intros i l Hi Hl. rewrite list_lookup_fmap, Hi. simpl. f_equal.
    by apply Hkeep.
Qed.

(** X7: asking for more merges than there are records performs all of
    them and stops: the result is that of [len(list_changes)] merges. *)
Theorem do_merges_clamped (labels : label_seq)
    (list_changes : list (list string * string)) (n_merges : nat) :
  length list_changes ≤ n_merges →
  do_merges labels list_changes n_merges =
  do_merges labels list_changes (length list_changes).
Proof.
  intros Hn. destruct labels as [a|a|a]; [|done..]. simpl.
  by rewrite !do_merges_loop_foldl, drop_0, firstn_all, take_ge.
Qed.

Lemma do_merges_clamped_witness :
  do_merges (NdArray ["a1"; "a2"; "B"]) [(["a1"; "a2"], "A")] 7 =
  do_merges (NdArray ["a1"; "a2"; "B"]) [(["a1"; "a2"], "A")] 1.
Proof.
  apply (do_merges_clamped (NdArray ["a1"; "a2"; "B"]) [(["a1"; "a2"], "A")] 7).
  simpl. lia.
Defined.

(** X8: merges compose: [n + m] merges are [n] merges followed by [m]
    merges with the records that are left. *)
Theorem do_merges_compose (a : list string)
    (list_changes : list (list string * string)) (n m : nat) :
  do_merges (NdArray a) list_changes (n + m) =
  do_merges (do_merges (NdArray a) list_changes n).1 (drop n list_changes) m.
Proof.
  simpl. rewrite !do_merges_loop_foldl, !drop_0.
  by rewrite <- take_take_drop, foldl_app.
Qed.

(** ** Merging along the schedule of the tree *)







(** ** More on [simplify_tree] *)

Lemma set_parent_set_parent (r : row) (p q : string) :
  set_parent (set_parent r p) q = set_parent r q.
Proof. done. Qed.

Lemma set_parent_same (r : row) : set_parent r (parent r) = r.
Proof. by destruct r. Qed.

(** One round keeps what links the rows of the working tree to the rows of
    the tree [T0] at the start: a row is a row of [T0] with a parent that is
    at or above the parent it had. *)
Lemma simplify_round_origin (T0 T : HTree) (node : string) (r : row) :
  (∀ r', r' ∈ T → ∃ o, o ∈ T0 ∧ r' = set_parent o (parent r') ∧
                       ancestor_or_self T0 (parent o) (parent r')) →
  r ∈ T → child r = node →
  ∀ r', r' ∈ simplify_round T node (parent r) →
    ∃ o, o ∈ T0 ∧ r' = set_parent o (parent r') ∧
         ancestor_or_self T0 (parent o) (parent r').
Proof.
  intros Horigin Hr Hc r' Hr'.
  apply list_elem_of_filter in Hr' as [_ Hr'].
  apply list_elem_of_fmap in Hr' as (r1 & -> & Hr1).
  destruct (Horigin r1 Hr1) as (o & Ho & Heq & Hup).
  unfold rewire. destruct (decide (parent r1 = node)) as [Hp|Hp]; [|by exists o].
  destruct (Horigin r Hr) as (o2 & Ho2 & Heq2 & Hup2).
  exists o. split_and!; [done| |].
  - simpl. rewrite Heq. by rewrite set_parent_set_parent.
  - simpl. eapply ancestor_or_self_trans; [exact Hup|]. rewrite Hp.
    eapply aos_up; [|exact Hup2].
    apply parent_where_child_elem. exists o2. split_and!; [done| |done].
    rewrite Heq2 in Hc. by simpl in Hc.
Qed.

Lemma simplify_loop_origin (T0 : HTree) (skip : list string) :
  ∀ T, NoDup (child <$> T) →
    (∀ r', r' ∈ T → ∃ o, o ∈ T0 ∧ r' = set_parent o (parent r') ∧
                         ancestor_or_self T0 (parent o) (parent r')) →
    ∃ T', simplify_loop T skip = Ok T' ∧
      NoDup (child <$> T') ∧
      (child <$> T') `sublist_of` (child <$> T) ∧
      (∀ r', r' ∈ T' → ∃ o, o ∈ T0 ∧ r' = set_parent o (parent r') ∧
                            ancestor_or_self T0 (parent o) (parent r')) ∧
      (∀ q, q ∈ skip → q ∉ child <$> T').
Proof.
  induction skip as [|node skip IH]; intros T Hnd Horigin.
  { exists T. split_and!; [done..|]. intros q Hq. by apply elem_of_nil in Hq. }
  destruct (decide (node ∈ child <$> T)) as [Hin|Habs].
  - destruct (simplify_loop_cons_present T node skip Hnd Hin)
      as (r & Hr & Hc & _ & ->).
    pose proof (simplify_round_children T node (parent r)) as Hsub.
    destruct (IH (simplify_round T node (parent r)))
      as (T' & Hrun & Hnd' & Hsub' & Horigin' & Hskip).
    { by eapply sublist_NoDup. }
    { by apply (simplify_round_origin T0 T node r). }
    exists T'. split_and!; [done|done|by etrans|done|].
    intros q [->|Hq]%elem_of_cons; [|by apply Hskip].
    intros Hq. apply (simplify_round_removes T node (parent r)).
    by eapply elem_of_sublist.
  - rewrite (simplify_loop_cons_absent T node skip Habs).
    destruct (IH T Hnd Horigin) as (T' & Hrun & Hnd' & Hsub' & Horigin' & Hskip).
    exists T'. split_and!; [done..|].
    intros q [->|Hq]%elem_of_cons; [|by apply Hskip].
    intros Hq. apply Habs. by eapply elem_of_sublist.
Qed.



Example simplify_tree_explicit :
  simplify_tree_rows example_tree (Some ["A"; "ghost"]) =
  Ok ([ leaf_row "a1" "R" 0; leaf_row "a2" "R" 1; leaf_row "B" "R" 2;
        node_row "R" "root" (5#4) 2 ], ["A"; "ghost"]).
Proof. by vm_compute. Qed.

(** X12: the tree that [simplify_tree] returns for a well-formed tree is
    well-formed, and none of its nodes has exactly one child. *)
Theorem simplify_tree_valid (T : HTree) :
  valid_tree T →
  ∃ T' skip,
    simplify_tree_rows T None = Ok (T', skip) ∧
    valid_tree T' ∧
    ∀ r, r ∈ T' → length (child_where_parent T' (child r)) ≠ 1.
Proof.
  intros Hvalid. pose proof (valid_unique T Hvalid) as Hnd.
  destruct (simplify_loop_origin T (default_skip_nodes T) T Hnd)
    as (T' & Hrun & _ & Hsub & Horigin & Hskip).
  { intros r Hr. exists r. split_and!; [done| |constructor].
    by rewrite set_parent_same. }
  exists T', (default_skip_nodes T).
  unfold simplify_tree_rows. simpl. rewrite Hrun. split; [done|].
  destruct (simplify_loop_inv T (valid_leaf_no_child T Hvalid)
              (default_skip_nodes T)
              (λ q, proj1 (elem_of_default_skip_nodes T q))
              [] T (simplify_inv_start T Hnd))
    as (T'' & Hrun' & Hinv).
  rewrite Hrun' in Hrun. injection Hrun as ->.
  assert (Hcount : ∀ r, r ∈ T' → pcount T' (child r) = pcount T (child r)).
  { intros r Hr. destruct (inv_count T _ _ Hinv (child r)) as [|[_ Habs]]; [done|].
    destruct Habs. by apply list_elem_of_fmap_2. }
  split; [split|].
  - apply (inv_unique T _ _ Hinv).
  - intros r' Hr'. destruct (Horigin r' Hr') as (r & Hr & Heq & _).
    assert (Hc : child r' = child r) by (by rewrite Heq).
    assert (Hf : isleaf r' = isleaf r) by (by rewrite Heq).
    rewrite Hf, (valid_leaf T Hvalid r Hr).
    pose proof (Hcount r' Hr') as Hn. rewrite !pcount_children, Hc in Hn.
    rewrite Hc. split; intros Hnil.
    + apply nil_length_inv. rewrite Hn. by rewrite Hnil.
    + apply nil_length_inv. rewrite <- Hn. by rewrite Hnil.
  - intros r' Hr' Hflag. destruct (Horigin r' Hr') as (r & Hr & Heq & _).
    rewrite Heq in Hflag |- *. simpl in *. by apply (valid_leaf_height T Hvalid).
  - destruct (valid_acyclic T Hvalid) as [rank Hrank]. exists rank.
    intros r' Hr'. destruct (Horigin r' Hr') as (r & Hr & Heq & Hup).
    apply (ancestor_rank T rank Hrank) in Hup.
    specialize (Hrank r Hr).
    assert (Hc : child r' = child r) by (by rewrite Heq).
    rewrite Hc. destruct Hup as [<-|Hlt]; lia.
  - intros Hin. apply (valid_named T Hvalid). by eapply elem_of_sublist.
  - intros r' Hr' Hone. rewrite <- pcount_children in Hone.
    rewrite (Hcount r' Hr') in Hone.
    apply elem_of_default_skip_nodes in Hone.
    apply (Hskip _ Hone). by apply list_elem_of_fmap_2.
Qed.

Lemma simplify_tree_valid_witness :
  ∃ T' skip,
    simplify_tree_rows chain_tree None = Ok (T', skip) ∧
    valid_tree T' ∧
    ∀ r, r ∈ T' → length (child_where_parent T' (child r)) ≠ 1.
Proof.
  apply (simplify_tree_valid chain_tree).
  concrete_valid_tree chain_rank.
Defined.

(** ** More on the cophenetic distance *)

Lemma for_each_ok_or_raise {A St : Type} (l : list A)
    (body : A → St → result St) (e : exn) :
  (∀ a s, a ∈ l → (∃ s', body a s = Ok s') ∨ body a s = Raise e) →
  ∀ s, (∃ s', for_each l body s = Ok s') ∨ for_each l body s = Raise e.
Proof.
  induction l as [|a l IH]; intros Hbody s; [left; by eexists|].
  simpl. destruct (Hbody a s) as [[s' ->]| ->]; [left| |by right].
  apply IH. intros a' s'' Ha'. apply Hbody. by right.
Qed.

Lemma for_each_raise {A St : Type} (l : list A) (body : A → St → result St)
    (e : exn) :
  (∀ a s, a ∈ l → (∃ s', body a s = Ok s') ∨ body a s = Raise e) →
  (∃ a, a ∈ l ∧ ∀ s, body a s = Raise e) →
  ∀ s, for_each l body s = Raise e.
Proof.
  induction l as [|a l IH]; intros Hbody (b & Hb & Hraise) s.
  { by apply elem_of_nil in Hb. }
  simpl. destruct (Hbody a s) as [[s' Hs']|Hs']; [left| |by rewrite Hs'].
  rewrite Hs'. simpl. apply elem_of_cons in Hb as [->|Hb].
  { by rewrite Hraise in Hs'. }
  apply IH; [|by exists b]. intros a' s'' Ha'. apply Hbody. by right.
Qed.

Lemma lowest_common_ancestor_unique (T : HTree) (i j c d : string) :
  acyclic T → lowest_common_ancestor T i j c → lowest_common_ancestor T i j d →
  c = d.
Proof.
  intros [rank Hrank] (Hic & Hjc & Hc) (Hid & Hjd & Hd).
  apply (ancestor_antisym T rank Hrank); [by apply Hc|by apply Hd].
Qed.

(** X13: when the lowest common ancestor of two leaves of a well-formed
    tree has no row of its own, as for two leaves that meet only in the root
    sentinel of a tree with several root rows,
    [calculate_cophenetic_distance] raises [IndexError]. *)
Theorem cophenetic_distance_no_row (T : HTree) (li lj c : string) :
  valid_tree T → li ∈ leaf_names T → lj ∈ leaf_names T →
  lowest_common_ancestor T li lj c → c ∉ child <$> T →
  ∃ fuel0, ∀ fuel, fuel0 ≤ fuel →
    calculate_cophenetic_distance fuel T = Raise IndexError.
Proof.
  intros [Hnd Hleaf Hheight Hacyclic Hnamed] Hli Hlj Hlca Hc.
  pose proof Hacyclic as [rank Hrank].
  exists (S (top_rank T rank)). intros fuel Hfuel.
  assert (Hrun : ∀ n, ∃ l, up_path T n l ∧ get_ancestors fuel T n None = Ok l).
  { intros n. destruct (up_path_exists T rank Hrank Hnd n) as (l & Hl & Hlen).
    exists l. split; [done|]. apply get_ancestors_up_path; [done..|lia]. }
  assert (Hcell : ∀ a b df,
            (∃ df', distance_cell fuel T a b df = Ok df') ∨
            distance_cell fuel T a b df = Raise IndexError).
  { intros a b df. destruct (Hrun a) as (la & _ & Ha).
    destruct (Hrun b) as (lb & _ & Hb).
    rewrite (distance_cell_first fuel T a b la lb df Ha Hb).
    destruct (first_in _ _) as [m|]; [|left; by eexists].
    unfold y_of_child. destruct (y_where_child T m); [by right|left; by eexists]. }
  unfold calculate_cophenetic_distance.
  apply for_each_raise.
  - intros a s _. apply for_each_ok_or_raise. intros b s' _. apply Hcell.
  - exists li. split; [done|]. intros s. apply for_each_raise.
    + intros b s' _. apply Hcell.
    + exists lj. split; [done|]. intros df.
      destruct (Hrun li) as (pi & Hpi & Hi). destruct (Hrun lj) as (pj & Hpj & Hj).
      rewrite (distance_cell_first fuel T li lj pi pj df Hi Hj).
      destruct (first_in (li :: pi) (lj :: pj)) as [m|] eqn:Hfirst.
      * pose proof (first_in_lowest T li lj m pi pj Hpi Hpj Hfirst) as Hm.
        rewrite (lowest_common_ancestor_unique T li lj m c Hacyclic Hm Hlca).
        unfold y_of_child, y_where_child.
        destruct (filter (λ r, child r = c) T) as [|r rest] eqn:Hf; [done|].
        destruct Hc. assert (Hin : r ∈ filter (λ r, child r = c) T)
          by (rewrite Hf; left).
        apply list_elem_of_filter in Hin as [<- Hin].
        by apply list_elem_of_fmap_2.
      * destruct Hlca as (Hic & Hjc & _).
        apply (up_path_ancestor T li c pi Hpi) in Hic.
        apply (up_path_ancestor T lj c pj Hpj) in Hjc.
        by destruct (first_in_None _ _ c Hfirst Hic).
Qed.

Lemma twin_tree_valid : valid_tree twin_tree.
Proof.
  split.
  - compute_done.
  - each_row ltac:(compute_done).
  - each_row ltac:(intros Hflag; first [discriminate Hflag|reflexivity]).
  - exists (λ s, if decide (s = "root") then 1 else 0).
    each_row ltac:(compute_done).
  - compute_done.
Qed.

Lemma cophenetic_distance_no_row_witness :
  ∃ fuel0, ∀ fuel, fuel0 ≤ fuel →
    calculate_cophenetic_distance fuel twin_tree = Raise IndexError.
Proof.
  apply (cophenetic_distance_no_row twin_tree "a" "b" "root").
  - apply twin_tree_valid.
  - compute_done.
  - compute_done.
  - apply (first_in_lowest twin_tree "a" "b" "root" ["root"] ["root"]).
    + apply up_path_step; [reflexivity|]. by apply up_path_end.
    + apply up_path_step; [reflexivity|]. by apply up_path_end.
    + reflexivity.
  - compute_done.
Defined.

Example cophenetic_distance_twin :
  calculate_cophenetic_distance 3 twin_tree = Raise IndexError.
Proof. by vm_compute. Qed.

(** The ancestors of a node lie on one path. *)
Lemma ancestor_chain (T : HTree) (j a b : string) :
  NoDup (child <$> T) →
  ancestor_or_self T j a → ancestor_or_self T j b →
  ancestor_or_self T a b ∨ ancestor_or_self T b a.
Proof.
  intros Hnd Ha. revert b. induction Ha as [n|n p a Hp Ha IH]; intros b Hb.
  { by left. }
  inversion Hb as [|n' p' b' Hp' Hb']; subst.
  { right. by eapply aos_up. }
  apply IH. replace p with p'; [done|].
  apply parent_where_child_elem in Hp as (r & Hr & Hrn & Hrp).
  rewrite <- Hrn, (parent_where_child_row T r Hnd Hr) in Hp'.
  apply list_elem_of_singleton in Hp'. congruence.
Qed.

(** Heights that do not fall from a row to the row of its parent do not
    fall along a path upwards. *)
Lemma height_along (T : HTree) (c d : string) (rc rd : row) :
  NoDup (child <$> T) →
  (∀ r rp, r ∈ T → rp ∈ T → parent r = child rp → (y r <= y rp)%Q) →
  ancestor_or_self T c d →
  rc ∈ T → child rc = c → rd ∈ T → child rd = d → (y rc <= y rd)%Q.
Proof.
  intros Hnd Hmono Hcd. revert rc.
  induction Hcd as [n|n p a Hp Ha IH]; intros rc Hrc Hc Hrd Hd.
  { rewrite (row_unique T rc rd Hnd Hrc Hrd) by congruence. apply Qle_refl. }
  apply parent_where_child_elem in Hp as (r & Hr & Hrn & Hrp).
  assert (r = rc) as -> by (apply (row_unique T); [done..|congruence]).
  assert (Hprow : p ∈ child <$> T).
  { apply (ancestor_has_row T p a Ha). rewrite <- Hd. by apply list_elem_of_fmap_2. }
  apply list_elem_of_fmap in Hprow as (rp & Hrp' & HrpT).
  eapply Qle_trans; [apply (Hmono rc rp); [done..|congruence]|].
  by apply IH.
Qed.

(** X14: on a dendrogram whose heights do not fall from a node to its
    parent, the cophenetic distance is an ultrametric: the distance between
    two leaves is at most the greater of their distances to any third
    leaf. *)
Theorem cophenetic_distance_ultrametric (T : HTree) :
  dendrogram T →
  (∀ r rp, r ∈ T → rp ∈ T → parent r = child rp → (y r <= y rp)%Q) →
  ∃ fuel0 M,
    (∀ fuel, fuel0 ≤ fuel → calculate_cophenetic_distance fuel T = Ok M) ∧
    ∀ i j k, i ∈ leaf_names T → j ∈ leaf_names T → k ∈ leaf_names T →
      ∃ dij djk dik,
        M !! (i, j) = Some dij ∧ M !! (j, k) = Some djk ∧
        M !! (i, k) = Some dik ∧ (dik <= Qmax dij djk)%Q.
Proof.
  intros Hdend Hmono.
  destruct (cophenetic_distance_dendrogram T Hdend) as (fuel0 & M & Hrun & Hlca & _).
  destruct Hdend as [[Hnd _ _ Hacyclic _] _].
  exists fuel0, M. split; [done|]. intros i j k Hi Hj Hk.
  destruct (Hlca i j Hi Hj) as (c1 & r1 & (Hi1 & Hj1 & Hlow1) & Hr1 & Hc1 & HM1).
  destruct (Hlca j k Hj Hk) as (c2 & r2 & (Hj2 & Hk2 & Hlow2) & Hr2 & Hc2 & HM2).
  destruct (Hlca i k Hi Hk) as (c3 & r3 & (Hi3 & Hk3 & Hlow3) & Hr3 & Hc3 & HM3).
  exists (y r1), (y r2), (y r3). split_and!; [done..|].
  destruct (ancestor_chain T j c1 c2 Hnd Hj1 Hj2) as [H12|H21].
  - eapply Qle_trans; [|apply Q.le_max_r].
    apply (height_along T c3 c2 r3 r2 Hnd Hmono); [|done..].
    apply Hlow3; [|done]. by apply (ancestor_or_self_trans T i c1 c2).
  - eapply Qle_trans; [|apply Q.le_max_l].
    apply (height_along T c3 c1 r3 r1 Hnd Hmono); [|done..].
    apply Hlow3; [done|]. by apply (ancestor_or_self_trans T k c2 c1).
Qed.

Lemma cophenetic_distance_ultrametric_witness :
  ∃ fuel0 M,
    (∀ fuel, fuel0 ≤ fuel →
       calculate_cophenetic_distance fuel example_tree = Ok M) ∧
    ∀ i j k, i ∈ leaf_names example_tree → j ∈ leaf_names example_tree →
             k ∈ leaf_names example_tree →
      ∃ dij djk dik,
        M !! (i, j) = Some dij ∧ M !! (j, k) = Some djk ∧
        M !! (i, k) = Some dik ∧ (dik <= Qmax dij djk)%Q.
Proof.
  apply (cophenetic_distance_ultrametric example_tree).
  - split; [concrete_valid_tree example_rank|reflexivity].
  - intros r rp Hr. revert rp. revert r Hr.
    each_row ltac:(each_row ltac:(first [discriminate|compute_done])).
Defined.

(** ** The layout *)

Example update_layout_example :
  @update_layout argsort_by_insertion q_mean 5
    [ leaf_row "a1" "A" 7; leaf_row "a2" "A" 3; leaf_row "B" "R" 5;
      node_row "A" "R" 0 1; node_row "R" "root" 0 2 ] =
  Ok [ leaf_row "a1" "A" 2; leaf_row "a2" "A" 0; leaf_row "B" "R" 1;
       node_row "A" "R" 1 1; node_row "R" "root" 1 2 ].
Proof. by vm_compute. Qed.




















(** ** Distances in a subtree *)

Lemma ancestor_or_self_filter (T : HTree) (P : row → Prop)
    `{!∀ r, Decision (P r)} (a b : string) :
  ancestor_or_self (filter P T) a b → ancestor_or_self T a b.
Proof.
  induction 1 as [n|n p a Hp Ha IH]; [constructor|].
  eapply aos_up; [|exact IH].
  apply parent_where_child_elem in Hp as (r & Hr & Hc & Hpr).
  apply parent_where_child_elem. exists r.
  by apply list_elem_of_filter in Hr as [_ Hr].
Qed.

(** A path that ends at or below [node] runs inside the subtree of
    [node]. *)
Lemma ancestor_or_self_inside (T : HTree) (P : row → Prop)
    `{!∀ r, Decision (P r)} (node a b : string) :
  (∀ r, r ∈ T → P r ↔ ancestor_or_self T (child r) node) →
  ancestor_or_self T a b → ancestor_or_self T b node →
  ancestor_or_self (filter P T) a b.
Proof.
  intros HP Hab Hb. induction Hab as [n|n p a Hp Ha IH]; [constructor|].
  eapply aos_up; [|by apply IH].
  pose proof Hp as (r & Hr & Hc & Hpr)%parent_where_child_elem.
  apply parent_where_child_elem. exists r. split_and!; [|done..].
  apply list_elem_of_filter. split; [|done]. apply (HP r Hr). rewrite Hc.
  eapply aos_up; [exact Hp|]. by eapply ancestor_or_self_trans.
Qed.

(** X16: the cophenetic distances of a subtree are those of the tree: for
    a node of a dendrogram that has a row and a child, the frame computed on
    [get_subtree(node)] agrees with the frame computed on the whole tree on
    every pair of leaves of the subtree. *)
Theorem cophenetic_distance_subtree (T : HTree) (node : string) :
  dendrogram T → node ∈ child <$> T → child_where_parent T node ≠ [] →
  ∃ fuel0 S M MS,
    (∀ fuel, fuel0 ≤ fuel →
       get_subtree fuel T node = Subtree S ∧
       calculate_cophenetic_distance fuel T = Ok M ∧
       calculate_cophenetic_distance fuel S = Ok MS) ∧
    (∀ i, i ∈ leaf_names S ↔
          i ∈ leaf_names T ∧ ancestor_or_self T i node) ∧
    (∀ i j, i ∈ leaf_names S → j ∈ leaf_names S →
       is_Some (MS !! (i, j)) ∧ MS !! (i, j) = M !! (i, j)).
Proof.
  intros Hdend Hnode Hne. pose proof (dendrogram_valid T Hdend) as Hvalid.
  pose proof (valid_unique T Hvalid) as Hnd.
  pose proof (valid_acyclic T Hvalid) as Hacyclic.
  destruct (get_descendants_total T Hacyclic) as [fuel1 Hdesc].
  destruct (Hdesc node false) as [below Hbelow].
  apply list_elem_of_fmap in Hnode as (r0 & Hr0 & Hr0T).
  set (P := λ r, child r ∈ below ++ [node]).
  assert (HP : ∀ r, r ∈ T → P r ↔ ancestor_or_self T (child r) node).
  { intros r _.
    apply (subtree_node_list_elem T fuel1 node below (Hbelow fuel1 (le_n _))). }
  destruct (subtree_rows_dendrogram T P node r0 Hvalid HP Hr0T (eq_sym Hr0))
    as (HdendS & _ & _).
  set (S := filter P T) in *.
  destruct (cophenetic_distance_dendrogram T Hdend) as (fuel2 & M & HM & HlcaT & _).
  destruct (cophenetic_distance_dendrogram S HdendS)
    as (fuel3 & MS & HMS & HlcaS & _).
  assert (Hleaves : ∀ i, i ∈ leaf_names S ↔
            i ∈ leaf_names T ∧ ancestor_or_self T i node).
  { intros i. rewrite !elem_of_leaf_names. split.
    - intros (r & Hr & Hc & Hf).
      apply list_elem_of_filter in Hr as [Hp Hr].
      split; [by exists r|]. rewrite <- Hc. by apply HP.
    - intros [(r & Hr & Hc & Hf) Hi]. exists r. split_and!; [|done..].
      apply list_elem_of_filter. split; [|done]. apply (HP r Hr).
      by rewrite Hc. }
  exists (fuel1 `max` (fuel2 `max` fuel3)), S, M, MS. split_and!.
  - intros fuel Hfuel. split_and!.
    + apply (get_subtree_cases T fuel node below); [apply Hbelow; lia|done].
    + apply HM. lia.
    + apply HMS. lia.
  - done.
  - intros i j Hi Hj.
    destruct (HlcaS i j Hi Hj) as (cS & rS & (HiS & HjS & HlowS) & HrS & HcS & ->).
    apply Hleaves in Hi as [HiT Hin]. apply Hleaves in Hj as [HjT Hjn].
    destruct (HlcaT i j HiT HjT) as (cT & rT & (HiT' & HjT' & HlowT) & HrT & HcT & ->).
    split; [by eexists|]. do 2 f_equal.
    assert (HcTn : ancestor_or_self T cT node) by (by apply HlowT).
    assert (Heq : cS = cT).
    { destruct Hacyclic as [rank Hrank].
      apply (ancestor_antisym T rank Hrank).
      - apply (ancestor_or_self_filter T P).
        apply HlowS; by apply (ancestor_or_self_inside T P node).
      - apply HlowT; by apply (ancestor_or_self_filter T P). }
    apply (row_unique T); [done| |done|congruence].
    by apply list_elem_of_filter in HrS as [_ ?].
Qed.

Lemma cophenetic_distance_subtree_witness :
  ∃ fuel0 S M MS,
    (∀ fuel, fuel0 ≤ fuel →
       get_subtree fuel example_tree "A" = Subtree S ∧
       calculate_cophenetic_distance fuel example_tree = Ok M ∧
       calculate_cophenetic_distance fuel S = Ok MS) ∧
    (∀ i, i ∈ leaf_names S ↔
          i ∈ leaf_names example_tree ∧ ancestor_or_self example_tree i "A") ∧
    (∀ i j, i ∈ leaf_names S → j ∈ leaf_names S →
       is_Some (MS !! (i, j)) ∧ MS !! (i, j) = M !! (i, j)).
Proof.
  apply (cophenetic_distance_subtree example_tree "A").
  - split; [concrete_valid_tree example_rank|reflexivity].
  - compute_done.
  - discriminate.
Defined.

(** ** The transport program *)

Lemma q_dot_cons (c d : Q) (a v : list Q) :
  q_dot (c :: a) (d :: v) = (c * d + q_dot a v)%Q.
Proof. reflexivity. Qed.

Lemma q_sum_cons (c : Q) (a : list Q) : q_sum (c :: a) = (c + q_sum a)%Q.
Proof. reflexivity. Qed.

Lemma q_dot_zeros (m : nat) (v : list Q) : (q_dot (replicate m 0) v == 0)%Q.
Proof.
  revert v. induction m as [|m IH]; intros [|a v]; try reflexivity.
  change (replicate (S m) 0%Q) with (0%Q :: replicate m 0%Q).
  rewrite q_dot_cons, IH. ring.
Qed.

Lemma q_dot_ones (v : list Q) : (q_dot (replicate (length v) 1) v == q_sum v)%Q.
Proof.
  induction v as [|a v IH]; [reflexivity|].
  change (replicate (length (a :: v)) 1%Q) with (1%Q :: replicate (length v) 1%Q).
  rewrite q_dot_cons, q_sum_cons, IH. ring.
Qed.

Lemma q_dot_unit (j : nat) (v : list Q) :
  (q_dot (<[j := 1%Q]> (replicate (length v) 0%Q)) v == default 0 (v !! j))%Q.
Proof.
  revert j. induction v as [|a v IH]; intros j; [reflexivity|].
  change (replicate (length (a :: v)) 0%Q) with (0%Q :: replicate (length v) 0%Q).
  destruct j as [|j].
  - change (<[0 := 1%Q]> (0%Q :: replicate (length v) 0%Q))
      with (1%Q :: replicate (length v) 0%Q).
    rewrite q_dot_cons, q_dot_zeros. simpl. ring.
  - change (<[S j := 1%Q]> (0%Q :: replicate (length v) 0%Q))
      with (0%Q :: <[j := 1%Q]> (replicate (length v) 0%Q)).
    rewrite q_dot_cons, IH. simpl. ring.
Qed.

Lemma q_dot_app (a a' v v' : list Q) :
  length a = length v →
  (q_dot (a ++ a') (v ++ v') == q_dot a v + q_dot a' v')%Q.
Proof.
  revert v. induction a as [|c a IH]; intros [|d v] Hlen; try done.
  - change (q_dot [] []) with 0%Q. simpl. ring.
  - injection Hlen as Hlen. specialize (IH v Hlen).
    change (q_dot ((c :: a) ++ a') ((d :: v) ++ v'))
      with (q_dot (c :: (a ++ a')) (d :: (v ++ v'))).
    rewrite !q_dot_cons, IH. ring.
Qed.

Lemma q_dot_concat (A X : list (list Q)) :
  Forall2 (λ a v, length a = length v) A X →
  (q_dot (concat A) (concat X) == q_sum (zip_with q_dot A X))%Q.
Proof.
  induction 1 as [|a v A X Hlen _ IH]; [reflexivity|].
  change (concat (a :: A)) with (a ++ concat A).
  change (concat (v :: X)) with (v ++ concat X).
  change (zip_with q_dot (a :: A) (v :: X)) with (q_dot a v :: zip_with q_dot A X).
  rewrite (q_dot_app _ _ _ _ Hlen), q_sum_cons, IH. reflexivity.
Qed.

Lemma q_sum_zero_rows (k n : nat) (X : list (list Q)) :
  (q_sum (zip_with q_dot (replicate k (replicate n 0%Q)) X) == 0)%Q.
Proof.
  revert X. induction k as [|k IH]; intros [|v X]; try reflexivity.
  change (replicate (S k) (replicate n 0%Q))
    with (replicate n 0%Q :: replicate k (replicate n 0%Q)).
  change (zip_with q_dot (?a :: ?A) (v :: X))
    with (q_dot a v :: zip_with q_dot A X).
  rewrite q_sum_cons, q_dot_zeros, IH. ring.
Qed.

(** The constraint of row [i] sums row [i] of the plan. *)
Lemma row_constraint_dot (n i : nat) (X : list (list Q)) :
  Forall (λ v, length v = n) X →
  (q_sum (zip_with q_dot (<[i := replicate n 1%Q]>
                            (replicate (length X) (replicate n 0%Q))) X)
   == q_sum (default [] (X !! i)))%Q.
Proof.
  intros HX. revert i. induction HX as [|v X Hv _ IH]; intros i.
  { reflexivity. }
  change (replicate (length (v :: X)) (replicate n 0%Q))
    with (replicate n 0%Q :: replicate (length X) (replicate n 0%Q)).
  destruct i as [|i].
  - change (<[0 := ?o]> (?z :: ?Z)) with (o :: Z).
    change (zip_with q_dot (?a :: ?A) (v :: X))
      with (q_dot a v :: zip_with q_dot A X).
    rewrite q_sum_cons, q_sum_zero_rows. rewrite <- Hv, q_dot_ones.
    simpl. ring.
  - change (<[S i := ?o]> (?z :: ?Z)) with (z :: <[i := o]> Z).
    change (zip_with q_dot (?a :: ?A) (v :: X))
      with (q_dot a v :: zip_with q_dot A X).
    rewrite q_sum_cons, q_dot_zeros, IH. simpl. ring.
Qed.

(** The constraint of column [j] sums column [j] of the plan. *)
Lemma col_constraint_dot (n j : nat) (X : list (list Q)) :
  Forall (λ v, length v = n) X →
  (q_sum (zip_with q_dot ((λ row, <[j := 1%Q]> row)
                            <$> replicate (length X) (replicate n 0%Q)) X)
   == q_sum ((λ row, default 0%Q (row !! j)) <$> X))%Q.
Proof.
  induction 1 as [|v X Hv _ IH]; [reflexivity|].
  change (replicate (length (v :: X)) (replicate n 0%Q))
    with (replicate n 0%Q :: replicate (length X) (replicate n 0%Q)).
  rewrite !fmap_cons.
  change (zip_with q_dot (?a :: ?A) (v :: X))
    with (q_dot a v :: zip_with q_dot A X).
  rewrite !q_sum_cons, IH. rewrite <- Hv, q_dot_unit. reflexivity.
Qed.

Lemma same_row_lengths (n : nat) (A X : list (list Q)) :
  length A = length X →
  Forall (λ a, length a = n) A → Forall (λ v, length v = n) X →
  Forall2 (λ a v, length a = length v) A X.
Proof.
  intros Hlen HA HX. apply Forall2_same_length_lookup_2; [done|].
  intros i a v Ha Hv.
  rewrite (Forall_lookup_1 _ _ _ _ HA Ha), (Forall_lookup_1 _ _ _ _ HX Hv). done.
Qed.

Lemma row_constraint_flat (n i : nat) (X : list (list Q)) :
  length X = n → Forall (λ v, length v = n) X →
  (q_dot (concat (row_constraint n i)) (concat X)
   == q_sum (default [] (X !! i)))%Q.
Proof.
  intros Hlen HX. unfold row_constraint, np_zeros.
  rewrite q_dot_concat.
  - rewrite <- Hlen at 2. by apply row_constraint_dot.
  - apply (same_row_lengths n); [|apply Forall_insert|done].
    + by rewrite length_insert, length_replicate.
    + apply Forall_replicate. by rewrite length_replicate.
    + by rewrite length_replicate.
Qed.

Lemma col_constraint_flat (n j : nat) (X : list (list Q)) :
  length X = n → Forall (λ v, length v = n) X →
  (q_dot (concat (col_constraint n j)) (concat X)
   == q_sum ((λ row, default 0%Q (row !! j)) <$> X))%Q.
Proof.
  intros Hlen HX. unfold col_constraint, np_zeros.
  rewrite q_dot_concat.
  - rewrite <- Hlen at 1. by apply col_constraint_dot.
  - apply (same_row_lengths n); [|apply Forall_fmap|done].
    + by rewrite length_fmap, length_replicate.
    + apply Forall_replicate. simpl.
      by rewrite length_insert, length_replicate.
Qed.

Lemma Forall2_fmap_seq {A B : Type} (R : A → B → Prop) (f : nat → A)
    (l : list B) (s : nat) :
  Forall2 R (f <$> seq s (length l)) l ↔
  ∀ i b, l !! i = Some b → R (f (s + i)) b.
Proof.
  revert s. induction l as [|b l IH]; intros s.
  { split; [by intros _ i b' ?|constructor]. }
  simpl. rewrite Forall2_cons, IH. split.
  - intros [Hb Hl] [|i] b' Hi; simpl in Hi.
    + injection Hi as <-. by rewrite Nat.add_0_r.
    + replace (s + S i) with (S s + i) by lia. by apply Hl.
  - intros Hall. split.
    + rewrite <- (Nat.add_0_r s). by apply (Hall 0).
    + intros i b' Hi. replace (S s + i) with (s + S i) by lia.
      by apply (Hall (S i)).
Qed.

(** X17: the equality constraints that [calculate_wasserstein_distance]
    hands to [linprog] are the marginal constraints of a transport plan.
    For distributions of the same length [n] the program has [2n] constraint
    rows of length [n*n] and [n*n] bounds, all of them [(0, None)]; the cost
    vector is the flattened distance matrix; and an [n] by [n] plan,
    flattened row by row, meets [A_eq x = b_eq] exactly when its row sums
    are [P] and its column sums are [Q]. *)
Theorem wasserstein_program_marginals (P Q_ : list Q) (D X : list (list Q)) :
  length Q_ = length P → length X = length P →
  Forall (λ v, length v = length P) X →
  ∃ lp,
    wasserstein_linprog_arguments P Q_ D = Ok lp ∧
    cost_vector lp = concat D ∧
    length (A_eq lp) = 2 * length P ∧
    Forall (λ a, length a = length P * length P) (A_eq lp) ∧
    b_eq lp = P ++ Q_ ∧
    bounds lp = replicate (length P * length P) (0%Q, None) ∧
    (Forall2 (λ a b, q_dot a (concat X) == b)%Q (A_eq lp) (b_eq lp) ↔
       (∀ i p, P !! i = Some p → (q_sum (default [] (X !! i)) == p)%Q) ∧
       (∀ j q, Q_ !! j = Some q →
          (q_sum ((λ row, default 0%Q (row !! j)) <$> X) == q)%Q)).
Proof.
  intros HQ HX Hrows. set (n := length P) in *.
  eexists. unfold wasserstein_linprog_arguments. fold n.
  rewrite decide_True by lia. split; [reflexivity|]. simpl.
  rewrite (take_ge Q_ n) by lia.
  assert (Hflat : ∀ (A : list (list Q)), length A = n →
            Forall (λ a, length a = n) A → length (concat A) = n * n).
  { intros A HA Hall. rewrite <- HA at 1. clear HA.
    induction Hall as [|a A Ha _ IH]; [done|].
    simpl. rewrite length_app, Ha, IH. lia. }
  pose proof (Forall2_fmap_seq (λ a b, q_dot a (concat X) == b)%Q
                (λ i, concat (row_constraint n i)) P 0) as HrowsP.
  pose proof (Forall2_fmap_seq (λ a b, q_dot a (concat X) == b)%Q
                (λ j, concat (col_constraint n j)) Q_ 0) as HcolsQ.
  rewrite HQ in HcolsQ. fold n in HrowsP.
  split_and!; [done| | |done|done|].
  - rewrite length_app, !length_fmap, !length_seq. lia.
  - apply Forall_app. split; apply Forall_fmap, Forall_forall; intros i _; simpl.
    + apply Hflat.
      * unfold row_constraint, np_zeros.
        by rewrite length_insert, length_replicate.
      * unfold row_constraint, np_zeros. apply Forall_insert.
        -- apply Forall_replicate. by rewrite length_replicate.
        -- by rewrite length_replicate.
    + apply Hflat.
      * unfold col_constraint, np_zeros.
        by rewrite length_fmap, length_replicate.
      * unfold col_constraint, np_zeros. apply Forall_fmap, Forall_replicate.
        simpl. by rewrite length_insert, length_replicate.
  - split.
    + intros Hall. apply Forall2_app_inv in Hall as [HP HQ'].
      2: { by rewrite length_fmap, length_seq. }
      split.
      * intros i p Hi. pose proof (proj1 HrowsP HP i p Hi) as Hi'.
        simpl in Hi'. by rewrite <- Hi', row_constraint_flat.
      * intros j q Hj. pose proof (proj1 HcolsQ HQ' j q Hj) as Hj'.
        simpl in Hj'. by rewrite <- Hj', col_constraint_flat.
    + intros [HP HQ']. apply Forall2_app.
      * apply (proj2 HrowsP). intros i p Hi. simpl.
        rewrite row_constraint_flat by done. by apply HP.
      * apply (proj2 HcolsQ). intros j q Hj. simpl.
        rewrite col_constraint_flat by done. by apply HQ'.
Qed.

Lemma wasserstein_program_marginals_witness :
  ∃ lp,
    wasserstein_linprog_arguments [1#2; 1#2]%Q [1#4; 3#4]%Q
                                  [[0; 1]; [1; 0]]%Q = Ok lp ∧
    cost_vector lp = concat [[0; 1]; [1; 0]]%Q ∧
    length (A_eq lp) = 2 * 2 ∧
    Forall (λ a, length a = 2 * 2) (A_eq lp) ∧
    b_eq lp = [1#2; 1#2; 1#4; 3#4]%Q ∧
    bounds lp = replicate (2 * 2) (0%Q, None) ∧
    (Forall2 (λ a b, q_dot a (concat [[1#4; 1#4]; [0; 1#2]]%Q) == b)%Q
             (A_eq lp) (b_eq lp) ↔
       (∀ i p, [1#2; 1#2]%Q !! i = Some p →
          (q_sum (default [] ([[1#4; 1#4]; [0; 1#2]]%Q !! i)) == p)%Q) ∧
       (∀ j q, [1#4; 3#4]%Q !! j = Some q →
          (q_sum ((λ row, default 0%Q (row !! j))
                    <$> [[1#4; 1#4]; [0; 1#2]]%Q) == q)%Q)).
Proof.
  apply (wasserstein_program_marginals [1#2; 1#2]%Q [1#4; 3#4]%Q
           [[0; 1]; [1; 0]]%Q [[1#4; 1#4]; [0; 1#2]]%Q).
  - reflexivity.
  - reflexivity.
  - by repeat constructor.
Defined.

Example wasserstein_program_example :
  wasserstein_linprog_arguments [1#2; 1#2]%Q [1#4; 3#4]%Q [[0; 1]; [1; 0]]%Q =
  Ok (LinearProgram [0; 1; 1; 0]%Q
        [ [1; 1; 0; 0]; [0; 0; 1; 1]; [1; 0; 1; 0]; [0; 1; 0; 1] ]%Q
        [1#2; 1#2; 1#4; 3#4]%Q
        [ (0%Q, None); (0%Q, None); (0%Q, None); (0%Q, None) ]).
Proof. reflexivity. Qed.

Example wasserstein_program_short :
  wasserstein_linprog_arguments [1#2; 1#2]%Q [1]%Q [[0; 1]; [1; 0]]%Q =
  Raise IndexError.
Proof. reflexivity. Qed.

(** ** Classifications *)

Example get_valid_classifications_example :
  get_valid_classifications 4 [tree_node example_tree "R"]
    (child <$> example_tree) (parent <$> example_tree) [] =
  Ok [ ["R"]; ["A"; "B"]; ["B"; "a1"; "a2"] ].
Proof. by vm_compute. Qed.

Lemma np_where_eq_children (T : HTree) (n : string) :
  np_where_eq (child <$> T) (parent <$> T) n = Ok (child_where_parent T n).
Proof.
  unfold np_where_eq. rewrite decide_True by (by rewrite !length_fmap).
  f_equal. unfold child_where_parent.
  induction T as [|r T IH]; [done|].
  rewrite !fmap_cons. cbn [zip zip_with]. rewrite !filter_cons. simpl.
  destruct (decide (parent r = n)); [rewrite !fmap_cons; simpl|]; by rewrite IH.
Qed.

Lemma np_where_eq_parents (T : HTree) (n : string) :
  np_where_eq (parent <$> T) (child <$> T) n = Ok (parent_where_child T n).
Proof.
  unfold np_where_eq. rewrite decide_True by (by rewrite !length_fmap).
  f_equal. unfold parent_where_child.
  induction T as [|r T IH]; [done|].
  rewrite !fmap_cons. cbn [zip zip_with]. rewrite !filter_cons. simpl.
  destruct (decide (child r = n)); [rewrite !fmap_cons; simpl|]; by rewrite IH.
Qed.

(** The constructor on the columns of a tree. *)
Lemma Node_init_tree (T : HTree) (n : string) :
  Node_init n (child <$> T) (parent <$> T) = Ok (tree_node T n).
Proof.
  unfold Node_init. by rewrite np_where_eq_children, np_where_eq_parents.
Qed.

Lemma map_result_ok {A B : Type} (f : A → result B) (g : A → B) (l : list A) :
  (∀ a, f a = Ok (g a)) → map_result f l = Ok (g <$> l).
Proof.
  intros Hf. induction l as [|a l IH]; [done|].
  simpl. by rewrite Hf, IH.
Qed.

Lemma Node_children_tree (T : HTree) (n : string) :
  Node_children (tree_node T n) (child <$> T) (parent <$> T) =
  Ok (tree_node T <$> child_where_parent T n).
Proof. apply map_result_ok. intros a. apply Node_init_tree. Qed.

Lemma insert_node_perm (a : Node) (l : list Node) : insert_node a l ≡ₚ a :: l.
Proof.
  induction l as [|b l IH]; [done|]. simpl.
  destruct (decide _); [done|]. rewrite IH. apply Permutation_swap.
Qed.

Lemma sort_by_name_perm (l : list Node) : sort_by_name l ≡ₚ l.
Proof.
  induction l as [|a l IH]; [done|].
  unfold sort_by_name in *. simpl. by rewrite insert_node_perm, IH.
Qed.

Lemma insert_node_sorted (a : Node) (l : list Node) :
  StronglySorted (λ b c, String.le (name b) (name c)) l →
  StronglySorted (λ b c, String.le (name b) (name c)) (insert_node a l).
Proof.
  induction 1 as [|b l Hl IH Hb]; simpl.
  { repeat constructor. }
  destruct (decide (String.le (name a) (name b))) as [Hab|Hab].
  - constructor; [by constructor|].
    constructor; [done|]. eapply Forall_impl; [exact Hb|].
    intros c Hc. simpl in Hc. by etrans.
  - constructor; [done|]. rewrite insert_node_perm.
    constructor; [|done]. by destruct (total String.le (name a) (name b)).
Qed.

Lemma sort_by_name_sorted (l : list Node) :
  StronglySorted (λ b c, String.le (name b) (name c)) (sort_by_name l).
Proof.
  induction l as [|a l IH]; [constructor|]. by apply insert_node_sorted.
Qed.

Lemma py_sorted_perm (l : list string) : py_sorted l ≡ₚ l.
Proof. apply merge_sort_Permutation. Qed.

Lemma py_sorted_sorted (l : list string) : StronglySorted String.le (py_sorted l).
Proof. apply StronglySorted_merge_sort; apply _. Qed.

(** Sorting does not depend on the order of the input. *)
Lemma py_sorted_unique (l k : list string) :
  StronglySorted String.le k → k ≡ₚ l → py_sorted l = k.
Proof.
  intros Hk Hperm. apply (StronglySorted_unique String.le).
  - apply py_sorted_sorted.
  - done.
  - by rewrite py_sorted_perm.
Qed.

Lemma py_sorted_proper (l k : list string) : l ≡ₚ k → py_sorted l = py_sorted k.
Proof.
  intros Hperm. apply py_sorted_unique; [apply py_sorted_sorted|].
  by rewrite py_sorted_perm.
Qed.

Lemma py_sorted_idemp (l : list string) : py_sorted (py_sorted l) = py_sorted l.
Proof. apply py_sorted_proper, py_sorted_perm. Qed.

Lemma sort_by_name_names (l : list Node) :
  name <$> sort_by_name l = py_sorted (name <$> l).
Proof.
  symmetry. apply py_sorted_unique.
  - apply (StronglySorted_fmap name (λ b c, String.le (name b) (name c)));
      [done|apply sort_by_name_sorted].
  - by rewrite sort_by_name_perm.
Qed.

Lemma sort_by_name_tree (T : HTree) (names : list string) :
  sort_by_name (tree_node T <$> names) = tree_node T <$> py_sorted names.
Proof.
  assert (Hall : Forall (λ a, a = tree_node T (name a))
                        (sort_by_name (tree_node T <$> names))).
  { rewrite sort_by_name_perm. apply Forall_fmap, Forall_forall. by intros n _. }
  assert (Hnames : name <$> (tree_node T <$> names) = names).
  { rewrite <- list_fmap_compose. rewrite <- (list_fmap_id names) at 2.
    by apply list_fmap_ext. }
  rewrite <- Hnames at 2. rewrite <- sort_by_name_names.
  revert Hall. generalize (sort_by_name (tree_node T <$> names)).
  intros l Hall. induction Hall as [|a l Ha _ IH]; [done|].
  rewrite !fmap_cons, <- Ha. by f_equal.
Qed.

Lemma list_remove_tree (T : HTree) (n : string) (l : list string) :
  n ∈ l →
  list_remove (tree_node T n) (tree_node T <$> l) =
  Ok (tree_node T <$> remove_first n l).
Proof.
  induction l as [|a l IH]; intros Hn; [by apply elem_of_nil in Hn|].
  rewrite fmap_cons. cbn [list_remove remove_first]. simpl.
  destruct (decide (a = n)) as [->|Hne]; [done|].
  apply elem_of_cons in Hn as [->|Hn]; [done|].
  by rewrite (IH Hn).
Qed.

Lemma for_each_fmap {A B St : Type} (f : A → B) (l : list A)
    (body : B → St → result St) (s : St) :
  for_each (f <$> l) body s = for_each l (λ a, body (f a)) s.
Proof.
  revert s. induction l as [|a l IH]; intros s; [done|].
  simpl. destruct (body (f a) s); simpl; [apply IH|done..].
Qed.

Lemma for_each_ext_in {A St : Type} (l : list A)
    (body1 body2 : A → St → result St) (s : St) :
  (∀ a s', a ∈ l → body1 a s' = body2 a s') →
  for_each l body1 s = for_each l body2 s.
Proof.
  revert s. induction l as [|a l IH]; intros s Hext; [done|].
  simpl. rewrite (Hext a s) by left.
  destruct (body2 a s); simpl; [|done..].
  apply IH. intros a' s' Ha'. apply Hext. by right.
Qed.

(** On the columns of a tree the function works on names. *)
Lemma get_valid_classifications_names (T : HTree) (fuel : nat) :
  ∀ names valid_classes,
    get_valid_classifications fuel (tree_node T <$> names)
      (child <$> T) (parent <$> T) valid_classes =
    classifications fuel T names valid_classes.
Proof.
  induction fuel as [|fuel IH]; intros names V; [done|].
  cbn [get_valid_classifications classifications].
  rewrite sort_by_name_tree.
  assert (Hnames : ∀ l : list string, name <$> (tree_node T <$> l) = l).
  { intros l. rewrite <- list_fmap_compose. rewrite <- (list_fmap_id l) at 2.
    by apply list_fmap_ext. }
  rewrite Hnames, py_sorted_idemp, for_each_fmap.
  apply for_each_ext_in. intros n V' Hn.
  rewrite Node_children_tree. cbn [mbind result_bind].
  rewrite length_fmap.
  destruct (decide (0 < length (child_where_parent T n))); [|done].
  rewrite (list_remove_tree T n _ Hn). cbn [mbind result_bind].
  rewrite <- fmap_app, Hnames.
  destruct (decide _); [done|]. apply IH.
Qed.

Section classifications_run.
Variable T : HTree.
Variable rank : string → nat.
Hypothesis rank_up : ∀ r, r ∈ T → rank (child r) < rank (parent r).

Lemma weights_perm (l k : list string) :
  l ≡ₚ k → sum_list_with (weight T rank) l = sum_list_with (weight T rank) k.
Proof. induction 1; simpl; lia. Qed.

Lemma weights_remove_first (n : string) (l : list string) :
  n ∈ l →
  sum_list_with (weight T rank) l =
  weight T rank n + sum_list_with (weight T rank) (remove_first n l).
Proof.
  induction l as [|a l IH]; intros Hn; [by apply elem_of_nil in Hn|].
  simpl. destruct (decide (a = n)) as [->|Hne]; [done|].
  apply elem_of_cons in Hn as [->|Hn]; [done|].
  simpl. rewrite (IH Hn). lia.
Qed.

(** Replacing a name by its children makes the list lighter. *)
Lemma weights_expand (n : string) (E : list string) :
  n ∈ E →
  sum_list_with (weight T rank) (remove_first n E ++ child_where_parent T n)
  < sum_list_with (weight T rank) E.
Proof.
  intros Hn. rewrite sum_list_with_app, (weights_remove_first n E Hn).
  pose proof (weight_children_lt T rank rank_up n). lia.
Qed.

(** A run on a list of weight at most [m] returns with any fuel above [m].
    It appends the sorted list and then only lists that can be reached from
    it; every step from an appended list leads to a list that is in the
    result; and it appends no list twice. *)
Lemma classifications_run (m : nat) :
  ∀ names V, sum_list_with (weight T rank) names ≤ m →
    ∃ new,
      (∀ fuel, m < fuel →
         classifications fuel T names V = Ok (V ++ py_sorted names :: new)) ∧
      (∀ X, X ∈ new → rtc (expand T) (py_sorted names) X) ∧
      (∀ X, X ∈ py_sorted names :: new → ∀ X', expand T X X' →
         X' ∈ V ++ py_sorted names :: new) ∧
      (NoDup V → py_sorted names ∉ V → NoDup (V ++ py_sorted names :: new)).
Proof.
  induction m as [m IHm] using lt_wf_ind. intros names V Hm.
  set (E := py_sorted names).
  assert (HmE : sum_list_with (weight T rank) E ≤ m).
  { unfold E. by rewrite (weights_perm _ _ (py_sorted_perm names)). }
  assert (Hloop : ∀ rest Vc, (∀ n, n ∈ rest → n ∈ E) →
    ∃ added,
      (∀ fuel', m ≤ fuel' →
         for_each rest (λ n valid_classes,
           let cs := child_where_parent T n in
           if decide (0 < length cs) then
             if decide (py_sorted (remove_first n E ++ cs) ∈ valid_classes)
             then Ok valid_classes
             else classifications fuel' T (remove_first n E ++ cs) valid_classes
           else Ok valid_classes) Vc = Ok (Vc ++ added)) ∧
      (∀ X, X ∈ added → rtc (expand T) E X) ∧
      (∀ X, X ∈ added → ∀ X', expand T X X' → X' ∈ Vc ++ added) ∧
      (∀ n, n ∈ rest → child_where_parent T n ≠ [] →
         py_sorted (remove_first n E ++ child_where_parent T n) ∈ Vc ++ added) ∧
      (NoDup Vc → NoDup (Vc ++ added))).
  { induction rest as [|n rest IH]; intros Vc Hrest.
    { exists []. rewrite app_nil_r. split_and!; [done| | | |done].
      - intros X HX. by apply elem_of_nil in HX.
      - intros X HX. by apply elem_of_nil in HX.
      - intros n Hn. by apply elem_of_nil in Hn. }
    assert (HnE : n ∈ E) by (apply Hrest; left).
    assert (Hrest' : ∀ n', n' ∈ rest → n' ∈ E)
      by (intros n' Hn'; apply Hrest; by right).
    cbn [for_each]. cbv zeta.
    destruct (decide (0 < length (child_where_parent T n))) as [Hcs|Hcs].
    2: { destruct (IH Vc Hrest') as (added & Hrun & Hsound & Hclosed & Hsucc & Hnd).
         exists added. split_and!; [done..| |done].
         intros n' [->|Hn']%elem_of_cons Hne; [|by apply Hsucc].
         destruct (child_where_parent T n); [done|]. simpl in Hcs. lia. }
    set (copy := remove_first n E ++ child_where_parent T n).
    assert (Hstep : expand T E (py_sorted copy)).
    { exists n. split_and!; [done| |done].
      intros Hnil. rewrite Hnil in Hcs. simpl in Hcs. lia. }
    destruct (decide (py_sorted copy ∈ Vc)) as [Hin|Hout].
    { destruct (IH Vc Hrest') as (added & Hrun & Hsound & Hclosed & Hsucc & Hnd).
      exists added. split_and!; [done..| |done].
      intros n' [->|Hn']%elem_of_cons Hne; [|by apply Hsucc].
      apply elem_of_app. by left. }
    pose proof (weights_expand n E HnE) as Hlt. fold copy in Hlt.
    destruct (IHm (sum_list_with (weight T rank) copy)) with (names := copy)
      (V := Vc) as (new1 & Hrun1 & Hsound1 & Hclosed1 & Hnd1); [lia|done|].
    destruct (IH (Vc ++ py_sorted copy :: new1) Hrest')
      as (added & Hrun & Hsound & Hclosed & Hsucc & Hnd).
    exists (py_sorted copy :: new1 ++ added).
    assert (Happ : Vc ++ py_sorted copy :: new1 ++ added =
                   (Vc ++ py_sorted copy :: new1) ++ added).
    { by rewrite <- app_assoc. }
    rewrite Happ. split_and!.
    - intros fuel' Hfuel. rewrite Hrun1 by lia. cbn [mbind result_bind].
      by apply Hrun.
    - intros X [->|[HX|HX]%elem_of_app]%elem_of_cons.
      + by apply rtc_once.
      + eapply rtc_l; [exact Hstep|by apply Hsound1].
      + by apply Hsound.
    - intros X HX X' HX'.
      rewrite app_comm_cons in HX. apply elem_of_app in HX as [HX|HX].
      + apply elem_of_app. left. by apply (Hclosed1 X).
      + by apply (Hclosed X).
    - intros n' [->|Hn']%elem_of_cons Hne; [|by apply Hsucc].
      apply elem_of_app. left. apply elem_of_app. right. left.
    - intros HndVc. by apply Hnd, Hnd1. }
  destruct (Hloop E (V ++ [E])) as (added & Hrun & Hsound & Hclosed & Hsucc & Hnd);
    [done|].
  exists added.
  assert (Happ : V ++ E :: added = (V ++ [E]) ++ added).
  { by rewrite <- app_assoc. }
  rewrite Happ. split_and!.
  - intros [|fuel'] Hfuel; [lia|].
    cbn [classifications]. cbv zeta. fold E. apply Hrun. lia.
  - done.
  - intros X [->|HX]%elem_of_cons X' HX'; [|by apply (Hclosed X)].
    destruct HX' as (n & Hn & Hne & ->). by apply Hsucc.
  - intros HndV HE. apply Hnd. apply NoDup_app. split_and!; [done| |].
    + intros X HX ->%list_elem_of_singleton. done.
    + apply NoDup_singleton.
Qed.

End classifications_run.

(** X18: on the child and parent columns of an acyclic tree, started on
    the nodes built for a list of names and with an empty [valid_classes],
    [get_valid_classifications] returns.  The result starts with the sorted
    names, holds no classification twice, and holds exactly the
    classifications that are reached from the sorted names by replacing,
    step by step, a name that has children by its children. *)
Theorem get_valid_classifications_reachable (T : HTree) (roots : list string)
    (nodes : list Node) :
  acyclic T →
  map_result (λ n, Node_init n (child <$> T) (parent <$> T)) roots = Ok nodes →
  ∃ fuel0 V,
    (∀ fuel, fuel0 ≤ fuel →
       get_valid_classifications fuel nodes (child <$> T) (parent <$> T) []
       = Ok V) ∧
    NoDup V ∧
    head V = Some (py_sorted roots) ∧
    (∀ E, E ∈ V ↔ rtc (expand T) (py_sorted roots) E).
Proof.
  intros [rank Hrank] Hnodes.
  rewrite (map_result_ok _ (tree_node T)) in Hnodes
    by (intros n; apply Node_init_tree).
  injection Hnodes as <-.
  destruct (classifications_run T rank Hrank
              (sum_list_with (weight T rank) roots) roots [] (le_n _))
    as (new & Hrun & Hsound & Hclosed & Hnd).
  exists (S (sum_list_with (weight T rank) roots)), (py_sorted roots :: new).
  split_and!.
  - intros fuel Hfuel. rewrite get_valid_classifications_names.
    apply Hrun. lia.
  - apply Hnd; [constructor|]. intros Hin. by apply elem_of_nil in Hin.
  - done.
  - intros E. split.
    + intros [->|HE]%elem_of_cons; [done|by apply Hsound].
    + revert E. apply rtc_ind_r; [left|].
      intros X X' _ Hstep HX. by apply (Hclosed X).
Qed.

Lemma get_valid_classifications_reachable_witness :
  ∃ fuel0 V,
    (∀ fuel, fuel0 ≤ fuel →
       get_valid_classifications fuel [tree_node example_tree "R"]
         (child <$> example_tree) (parent <$> example_tree) [] = Ok V) ∧
    NoDup V ∧
    head V = Some (py_sorted ["R"]) ∧
    (∀ E, E ∈ V ↔ rtc (expand example_tree) (py_sorted ["R"]) E).
Proof.
  apply (get_valid_classifications_reachable example_tree ["R"]).
  - exists example_rank. each_row ltac:(compute_done).
  - reflexivity.
Defined.

(** ** The chain of ancestors *)

Lemma up_path_rank (T : HTree) (rank : string → nat) (n : string)
    (l : list string) :
  (∀ r, r ∈ T → rank (child r) < rank (parent r)) →
  up_path T n l → ∀ a, a ∈ l → rank n < rank a.
Proof.
  intros Hrank. induction 1 as [n Hn|n p l Hp Hl IH]; intros a Ha.
  { by apply elem_of_nil in Ha. }
  assert (Hnp : rank n < rank p).
  { assert (Hin : p ∈ parent_where_child T n) by (rewrite Hp; left).
    apply parent_where_child_elem in Hin as (r & Hr & <- & <-). by apply Hrank. }
  apply elem_of_cons in Ha as [->|Ha]; [done|].
  specialize (IH a Ha). lia.
Qed.

Lemma up_path_last (T : HTree) (n : string) (l : list string) :
  up_path T n l → ∀ e, last (n :: l) = Some e → e ∉ child <$> T.
Proof.
  induction 1 as [n Hn|n p l Hp Hl IH]; intros e He.
  - injection He as <-. by apply parent_where_child_absent_iff.
  - apply IH. by rewrite last_cons_cons in He.
Qed.

(** X19: in a well-formed tree [get_ancestors] returns the chain of
    parents of the node, from its parent upwards: every label of the chain
    has exactly one row, whose parent is the next entry; the chain ends with
    a label that has no row; and no label occurs twice in it. *)
Theorem get_ancestors_chain (T : HTree) (node : string) :
  valid_tree T →
  ∃ fuel0 ancestors,
    (∀ fuel, fuel0 ≤ fuel → get_ancestors fuel T node None = Ok ancestors) ∧
    (∀ i a p, (node :: ancestors) !! i = Some a → ancestors !! i = Some p →
       parent_where_child T a = [p]) ∧
    (∀ e, last (node :: ancestors) = Some e → e ∉ child <$> T) ∧
    NoDup (node :: ancestors).
Proof.
  intros [Hnd _ _ [rank Hrank] Hnamed].
  destruct (up_path_exists T rank Hrank Hnd node) as (l & Hpath & Hlen).
  exists (S (length l)), l. split_and!.
  - intros fuel Hfuel. apply get_ancestors_up_path; [done..|lia].
  - clear Hlen. induction Hpath as [n Hn|n p l Hp Hl IH]; intros i a q Ha Hq.
    + by rewrite lookup_nil in Hq.
    + destruct i as [|i]; simpl in Ha, Hq.
      * injection Ha as <-. by injection Hq as <-.
      * by apply (IH i).
  - by apply up_path_last.
  - clear Hlen. induction Hpath as [n Hn|n p l Hp Hl IH].
    + apply NoDup_singleton.
    + apply NoDup_cons. split; [|done]. intros Hin.
      pose proof (up_path_rank T rank n (p :: l) Hrank
                    (up_path_step T n p l Hp Hl) n Hin). lia.
Qed.

Lemma get_ancestors_chain_witness :
  ∃ fuel0 ancestors,
    (∀ fuel, fuel0 ≤ fuel →
       get_ancestors fuel example_tree "a1" None = Ok ancestors) ∧
    (∀ i a p, ("a1" :: ancestors) !! i = Some a → ancestors !! i = Some p →
       parent_where_child example_tree a = [p]) ∧
    (∀ e, last ("a1" :: ancestors) = Some e → e ∉ child <$> example_tree) ∧
    NoDup ("a1" :: ancestors).
Proof.
  apply (get_ancestors_chain example_tree "a1").
  concrete_valid_tree example_rank.
Defined.
